(** * Mortgage versus investment optimiser (home.py)

    A shallow embedding of the computational core of [home.py]: the annuity
    payment [maandlast], the total repayment [totale_afbetaling], the Monte
    Carlo simulation [monte_carlo_etf_return], the scenario loop that fills
    [results], and the per-group reduction that fills [optimalisaties].

    Numbers.  Python integers are [Z].  Python and numpy floats are modelled
    by exact rationals [Q], compared with [==]; rounding, overflow, infinities
    and nan of binary64 are outside that model.  A statement made on it is
    a statement about the arithmetic the program writes down, not about its
    rounding behaviour.  Where the behaviour of [maandlast] on floats differs
    in kind, as it does for rates so small that [1 + r] rounds to 1, the
    statement is made on module [B64], which reads the same lines on IEEE
    binary64.

    Exceptions.  A computation that can raise returns [result A].

    Randomness.  [np.random.normal] reads the process-global legacy generator.
    The generator is modelled by the sequence of standard normal deviates it
    will deliver and a cursor into that sequence; a call consumes deviates in
    row-major order and advances the cursor. *)

From Stdlib Require Import ZArith QArith Qpower Qround Qfield List SetoidList Lia Lqa Bool
  Floats
  Setoid Morphisms.
Import ListNotations.

Set Implicit Arguments.
Unset Strict Implicit.

Open Scope Q_scope.

(** ** Exceptions *)

Inductive exn : Type :=
| ZeroDivisionError  (* float or int division by zero, 0.0 ** negative *)
| ValueError         (* numpy: negative dimensions, scale < 0 *)
| IndexError         (* numpy: index out of bounds *)
| KeyError           (* pandas: missing column *)
| NotANumber.        (* numpy returns nan (empty mean); no rational stands for it *)

Inductive result (A : Type) : Type :=
| Ok (a : A)
| Raise (e : exn).

Arguments Ok {A} a.
Arguments Raise {A} e.

Definition rbind {A B} (x : result A) (f : A -> result B) : result B :=
  match x with
  | Ok a => f a
  | Raise e => Raise e
  end.

Declare Scope result_scope.
Delimit Scope result_scope with result.
Notation "'let?' x ':=' a 'in' b" := (rbind a (fun x => b))
  (at level 10, x name, a at level 100, b at level 200) : result_scope.

(** ** Python arithmetic on the rational model *)

Module Py.

(** [a / b]: true division. *)
Definition div (a b : Q) : result Q :=
  if Qeq_bool b 0 then Raise ZeroDivisionError else Ok (a / b).

(** [b ** n] for a float [b] and an int [n], unrounded.  The
    [OverflowError] that Python raises when the result leaves the range of
    binary64 has no counterpart here. *)
Definition pow (b : Q) (n : Z) : result Q :=
  if Qeq_bool b 0 && (n <? 0)%Z then Raise ZeroDivisionError
  else Ok (b ^ n).

End Py.

(** ** Amortisation *)

Section Amortisation.

Local Open Scope result_scope.

(** [def maandlast(principal, annual_rate, years)], unrounded.  On floats
    the same lines can end differently: see [B64.maandlast]. *)
Definition maandlast (principal annual_rate : Q) (years : Z) : result Q :=
  let r := annual_rate / 12 in
  let n := (years * 12)%Z in
  if Qeq_bool r 0 then Py.div principal (inject_Z n)
  else
    let? g := Py.pow (1 + r) n in
    let? g' := Py.pow (1 + r) n in
    Py.div (principal * (r * g)) (g' - 1).

(** [def totale_afbetaling(principal, annual_rate, years)] *)
Definition totale_afbetaling (principal annual_rate : Q) (years : Z) : result Q :=
  let? m := maandlast principal annual_rate years in
  Ok (m * inject_Z years * 12).

End Amortisation.

(** The annuity formula as the specification words it: with [r = rate/12]
    and [n = 12 N], [P/n] when [r = 0] and [P r (1+r)^n / ((1+r)^n - 1)]
    otherwise. *)
Definition annuity_formula (P annual_rate : Q) (N : Z) : Q :=
  let r := annual_rate / 12 in
  let n := (N * 12)%Z in
  if Qeq_bool r 0 then P / inject_Z n
  else P * r * (1 + r) ^ n / ((1 + r) ^ n - 1).

(** The payment is the principal times a factor that depends on the rate
    and the term only. *)
Definition annuity_factor (a : Q) (N : Z) : Q :=
  if Qeq_bool (a / 12) 0 then / inject_Z (N * 12)
  else a / 12 * (1 + a / 12) ^ (N * 12) / ((1 + a / 12) ^ (N * 12) - 1).

(** ** The process-global random generator *)

Record RandomState : Type := {
  deviates : nat -> Q;   (* the standard normal deviates still to come *)
  cursor : nat           (* how many of them have been consumed *)
}.

(** Computations that read the generator and may raise. *)
Definition M (A : Type) : Type := RandomState -> result (A * RandomState).

Definition ret {A} (a : A) : M A := fun s => Ok (a, s).

Definition bind {A B} (m : M A) (f : A -> M B) : M B :=
  fun s => match m s with
           | Ok (a, s') => f a s'
           | Raise e => Raise e
           end.

Definition lift {A} (x : result A) : M A :=
  fun s => match x with
           | Ok a => Ok (a, s)
           | Raise e => Raise e
           end.

Declare Scope rng_scope.
Delimit Scope rng_scope with rng.
Notation "x <- m ;; k" := (bind m (fun x => k))
  (at level 61, m at next level, right associativity) : rng_scope.

Local Open Scope rng_scope.

Definition Qlt_bool (x y : Q) : bool := negb (Qle_bool y x).

Module Np.

(** One deviate of the legacy generator. *)
Definition legacy_gauss : M Q :=
  fun s => Ok (deviates s (cursor s),
               {| deviates := deviates s; cursor := S (cursor s) |}).

(** numpy's [legacy_normal]: [loc + scale * legacy_gauss()]. *)
Definition legacy_normal (loc scale : Q) : M Q :=
  z <- legacy_gauss ;; ret (loc + scale * z).

Fixpoint fill {A} (k : nat) (m : M A) : M (list A) :=
  match k with
  | O => ret []
  | S k' => x <- m ;; xs <- fill k' m ;; ret (x :: xs)
  end.

(** [np.random.normal(loc, scale, size=(rows, cols))], filled row by row. *)
Definition random_normal (loc scale : Q) (rows cols : Z) : M (list (list Q)) :=
  if Qlt_bool scale 0 || (rows <? 0)%Z || (cols <? 0)%Z then lift (Raise ValueError)
  else fill (Z.to_nat rows) (fill (Z.to_nat cols) (legacy_normal loc scale)).

Fixpoint cumprod_from (acc : Q) (l : list Q) : list Q :=
  match l with
  | [] => []
  | x :: t => acc * x :: cumprod_from (acc * x) t
  end.

(** [np.cumprod] along one row. *)
Definition cumprod (l : list Q) : list Q :=
  match l with
  | [] => []
  | x :: t => x :: cumprod_from x t
  end.

(** [a[:, -1]] on an array with [cols] columns. *)
Definition last_column (cols : Z) (a : list (list Q)) : result (list Q) :=
  if (cols =? 0)%Z then Raise IndexError
  else Ok (map (fun row => last row 0) a).

Definition sum (l : list Q) : Q := fold_left Qplus l 0.

(** [np.mean]. *)
Definition mean (l : list Q) : result Q :=
  match l with
  | [] => Raise NotANumber
  | _ :: _ => Ok (sum l / inject_Z (Z.of_nat (length l)))
  end.

Fixpoint insert (x : Q) (l : list Q) : list Q :=
  match l with
  | [] => [x]
  | y :: t => if Qle_bool x y then x :: y :: t else y :: insert x t
  end.

Fixpoint sort (l : list Q) : list Q :=
  match l with
  | [] => []
  | x :: t => insert x (sort t)
  end.

(** [np.percentile(a, q)] with the default linear interpolation between
    the order statistics around the virtual index [q/100 * (n-1)]. *)
Definition percentile (a : list Q) (q : Q) : result Q :=
  if Qlt_bool q 0 || Qlt_bool 100 q then Raise ValueError
  else
    match a with
    | [] => Raise NotANumber
    | _ :: _ =>
        let s := sort a in
        let n := length a in
        let pos := q / 100 * inject_Z (Z.of_nat (n - 1)) in
        let lo := Z.to_nat (Qfloor pos) in
        let hi := Nat.min (S lo) (n - 1) in
        let g := pos - inject_Z (Qfloor pos) in
        let x := nth lo s 0 in
        let y := nth hi s 0 in
        Ok (x + (y - x) * g)
    end.

(** [np.arange(start, stop, step)] on integers, for a positive step. *)
Definition arange (start stop step : Z) : list Z :=
  map (fun k => (start + Z.of_nat k * step)%Z)
      (seq 0 (Z.to_nat ((stop - start + step - 1) / step))).

End Np.

(** ** Monte Carlo simulation *)

(** [def monte_carlo_etf_return(startkapitaal, mean_return, volatility, years, n_simulaties)] *)
Definition monte_carlo_etf_return (startkapitaal mean_return volatility : Q)
    (years n_simulaties : Z) : M (list Q) :=
  jaarlijkse_rendementen <- Np.random_normal mean_return volatility n_simulaties years ;;
  let groeiperioden :=
    map (fun row => Np.cumprod (map (Qplus 1) row)) jaarlijkse_rendementen in
  laatste <- lift (Np.last_column years groeiperioden) ;;
  ret (map (Qmult startkapitaal) laatste).

(** ** The scenario table *)

(** The sidebar inputs the computation reads.  [rentes] are percentages;
    [etf_rendement] and [etf_volatiliteit] are already divided by 100. *)
Record Instellingen : Type := {
  woningprijs : Z;
  totale_spaarpot : Z;
  looptijden : list Z;
  rentes : list Q;
  etf_rendement : Q;
  etf_volatiliteit : Q;
  simulaties : Z
}.

(** One dictionary appended to [results]. *)
Record Scenario : Type := {
  s_looptijd : Z;             (* "Looptijd (j)" *)
  s_rente : Q;                (* "Rente (%)" *)
  s_inbreng : Z;              (* "Inbreng (€)" *)
  s_lening : Z;               (* "Lening (€)" *)
  s_maandlast : Q;            (* "Maandlast (€)" *)
  s_totale_afbetaling : Q;    (* "Totale afbetaling (€)" *)
  s_etf_gem : Q;              (* "ETF Gem. opbrengst (€)" *)
  s_etf_worst : Q;            (* "ETF 5% worst case (€)" *)
  s_netto_kost_mean : Q;      (* "Netto kost Gemiddeld (€)" *)
  s_netto_kost_worst : Q      (* "Netto kost Worst case (€)" *)
}.

(** A [for] loop whose body appends to one list: the rows come out in
    iteration order. *)
Fixpoint for_each {A B} (l : list A) (body : A -> M (list B)) : M (list B) :=
  match l with
  | [] => ret []
  | x :: t => rows <- body x ;; rest <- for_each t body ;; ret (rows ++ rest)
  end.

Section Grid.

Variable c : Instellingen.

Definition inbreng_values : list Z :=
  Np.arange 0 (totale_spaarpot c + 1) 1000.

(** The body of the innermost loop, for one [E].  There [L] is a numpy
    integer, and numpy answers a division by zero with inf or nan and a
    warning where Python raises; neither value is a rational, so the model
    raises in both cases.  This only concerns a term of zero years and the
    rate -2400, which the sidebar does not offer. *)
Definition scenario (looptijd : Z) (rente : Q) (E : Z) : M (list Scenario) :=
  let L := (woningprijs c - E)%Z in
  if (L <? 0)%Z then ret []     (* continue *)
  else
    maand <- lift (maandlast (inject_Z L) (rente / 100) looptijd) ;;
    let totale_afbetaling_ := maand * inject_Z looptijd * 12 in
    let belegbaar := (totale_spaarpot c - E)%Z in
    eindwaarden <- monte_carlo_etf_return (inject_Z belegbaar) (etf_rendement c)
                     (etf_volatiliteit c) looptijd (simulaties c) ;;
    mean_return_sim <- lift (Np.mean eindwaarden) ;;
    p5_return_sim <- lift (Np.percentile eindwaarden 5) ;;
    let netto_kost_mean := totale_afbetaling_ - mean_return_sim in
    let netto_kost_worst := totale_afbetaling_ - p5_return_sim in
    ret [ {| s_looptijd := looptijd;
             s_rente := rente;
             s_inbreng := E;
             s_lening := L;
             s_maandlast := maand;
             s_totale_afbetaling := totale_afbetaling_;
             s_etf_gem := mean_return_sim;
             s_etf_worst := p5_return_sim;
             s_netto_kost_mean := netto_kost_mean;
             s_netto_kost_worst := netto_kost_worst |} ].

(** The three nested loops that fill [results]. *)
Definition results : M (list Scenario) :=
  for_each (looptijden c) (fun looptijd =>
    for_each (rentes c) (fun rente =>
      for_each inbreng_values (fun E => scenario looptijd rente E))).

End Grid.

(** ** The optimisation summary *)

(** One dictionary appended to [optimalisaties]. *)
Record Optimalisatie : Type := {
  o_looptijd : Z;                   (* "Looptijd (j)" *)
  o_rente : Q;                      (* "Rente (%)" *)
  o_min_netto_kost_mean : Q;        (* "Min Netto Kost Gemiddeld" *)
  o_inbreng_min_kost_mean : Z;      (* "Inbreng Min Kost Gemiddeld" *)
  o_min_netto_kost_worst : Q;       (* "Min Netto Kost Worst case" *)
  o_inbreng_min_kost_worst : Z      (* "Inbreng Min Kost Worst case" *)
}.

Module Pd.

(** A data frame: the rows with their labels of the default range index. *)
Definition DataFrame : Type := list (nat * Scenario).

(** [pd.DataFrame(results)] *)
Definition of_rows (rows : list Scenario) : DataFrame :=
  combine (seq 0 (length rows)) rows.

Definition key : Type := (Z * Q)%type.

Definition key_of (r : Scenario) : key := (s_looptijd r, s_rente r).

Definition key_eqb (k1 k2 : key) : bool :=
  (fst k1 =? fst k2)%Z && Qeq_bool (snd k1) (snd k2).

(** Lexicographic order on the group keys. *)
Definition key_leb (k1 k2 : key) : bool :=
  (fst k1 <? fst k2)%Z || ((fst k1 =? fst k2)%Z && Qle_bool (snd k1) (snd k2)).

Fixpoint unique_keys (seen l : list key) : list key :=
  match l with
  | [] => []
  | k :: t =>
      if existsb (key_eqb k) seen then unique_keys seen t
      else k :: unique_keys (k :: seen) t
  end.

Fixpoint insert_key (k : key) (l : list key) : list key :=
  match l with
  | [] => [k]
  | k' :: t => if key_leb k k' then k :: k' :: t else k' :: insert_key k t
  end.

Fixpoint sort_keys (l : list key) : list key :=
  match l with
  | [] => []
  | k :: t => insert_key k (sort_keys t)
  end.

(** [df.groupby(["Looptijd (j)", "Rente (%)"])]: the groups in ascending
    key order, each with its rows in frame order.  A frame built from an
    empty list has no columns, and grouping it raises. *)
Definition groupby (df : DataFrame) : result (list (key * DataFrame)) :=
  match df with
  | [] => Raise KeyError
  | _ :: _ =>
      let keys := sort_keys (unique_keys [] (map (fun ir => key_of (snd ir)) df)) in
      Ok (map (fun k => (k, filter (fun ir => key_eqb (key_of (snd ir)) k) df)) keys)
  end.

Fixpoint idxmin_from (col : Scenario -> Q) (best : nat * Scenario)
    (g : DataFrame) : nat :=
  match g with
  | [] => fst best
  | ir :: t =>
      if Qlt_bool (col (snd ir)) (col (snd best)) then idxmin_from col ir t
      else idxmin_from col best t
  end.

(** [group[col].idxmin()]: the label of the first row holding the minimum. *)
Definition idxmin (col : Scenario -> Q) (g : DataFrame) : result nat :=
  match g with
  | [] => Raise ValueError
  | ir :: t => Ok (idxmin_from col ir t)
  end.

(** [group.loc[label]] *)
Fixpoint loc (g : DataFrame) (label : nat) : result Scenario :=
  match g with
  | [] => Raise KeyError
  | ir :: t => if Nat.eqb (fst ir) label then Ok (snd ir) else loc t label
  end.

End Pd.

Fixpoint for_each_result {A B} (l : list A) (body : A -> result B) : result (list B) :=
  match l with
  | [] => Ok []
  | x :: t =>
      (let? y := body x in
       let? ys := for_each_result t body in
       Ok (y :: ys))%result
  end.

(** The loop over [grouped]; [max_winst_mean] is computed and never read,
    and is left out. *)
Definition optimalisaties (rows : list Scenario) : result (list Optimalisatie) :=
  (let? grouped := Pd.groupby (Pd.of_rows rows) in
   for_each_result grouped (fun kg =>
     let '((looptijd, rente), group) := kg in
     let? i_mean := Pd.idxmin s_netto_kost_mean group in
     let? min_kost_mean := Pd.loc group i_mean in
     let? i_worst := Pd.idxmin s_netto_kost_worst group in
     let? min_kost_worst := Pd.loc group i_worst in
     Ok {| o_looptijd := looptijd;
           o_rente := rente;
           o_min_netto_kost_mean := s_netto_kost_mean min_kost_mean;
           o_inbreng_min_kost_mean := s_inbreng min_kost_mean;
           o_min_netto_kost_worst := s_netto_kost_worst min_kost_worst;
           o_inbreng_min_kost_worst := s_inbreng min_kost_worst |}))%result.

(** ** Vocabulary of the statements *)

(** The generator after [k] more deviates have been consumed. *)
Definition advance (s : RandomState) (k : nat) : RandomState :=
  {| deviates := deviates s; cursor := cursor s + k |}.

(** The [k] returns drawn from the deviates at positions [base], ...,
    [base + k - 1]. *)
Definition returns_at (d : nat -> Q) (loc scale : Q) (base k : nat) : list Q :=
  map (fun j => loc + scale * d (base + j)%nat) (seq 0 k).

(** The returns of trial [i] of a simulation over [k] periods that starts
    in state [s]. *)
Definition trial_returns (s : RandomState) (loc scale : Q) (k i : nat) : list Q :=
  returns_at (deviates s) loc scale (cursor s + i * k) k.

(** The product of [1 + x] over the returns of one trial. *)
Definition compound (l : list Q) : Q :=
  fold_right (fun x acc => (1 + x) * acc) 1 l.

(** Every entry of the sample equals [v]. *)
Definition all_eq (v : Q) (l : list Q) : Prop := Forall (fun x => x == v) l.

(** The cell of the grid a row belongs to. *)
Definition cell_of (r : Scenario) : Z * Q * Z :=
  (s_looptijd r, s_rente r, s_inbreng r).

(** The down payments of the grid that do not exceed the price. *)
Definition down_payments (c : Instellingen) : list Z :=
  filter (fun E => (E <=? woningprijs c)%Z) (inbreng_values c).

(** The cells the loops visit without skipping, in iteration order. *)
Definition plan (c : Instellingen) : list (Z * Q * Z) :=
  flat_map (fun t =>
    flat_map (fun r => map (fun E => (t, r, E)) (down_payments c)) (rentes c))
    (looptijden c).

(** How the columns of one row depend on each other. *)
Record row_ok (c : Instellingen) (r : Scenario) : Prop := {
  ok_lening : s_lening r = (woningprijs c - s_inbreng r)%Z;
  ok_lening_nonneg : (0 <= s_lening r)%Z;
  ok_maandlast :
    maandlast (inject_Z (s_lening r)) (s_rente r / 100) (s_looptijd r) =
    Ok (s_maandlast r);
  ok_totale_afbetaling :
    s_totale_afbetaling r = s_maandlast r * inject_Z (s_looptijd r) * 12;
  ok_netto_kost_mean :
    s_netto_kost_mean r = s_totale_afbetaling r - s_etf_gem r;
  ok_netto_kost_worst :
    s_netto_kost_worst r = s_totale_afbetaling r - s_etf_worst r
}.

(** Inputs inside the ranges the specification allows. *)
Record valid (c : Instellingen) : Prop := {
  valid_looptijden : Forall (fun t => (0 < t)%Z) (looptijden c);
  valid_rentes : Forall (fun r => 0 <= r) (rentes c);
  valid_volatiliteit : 0 <= etf_volatiliteit c;
  valid_simulaties : (0 < simulaties c)%Z
}.

(** ** A small run used in the examples *)

(** Price 2000, savings 1500, one term of one year at 0 percent, expected
    return 0 with volatility 1, two trials per cell. *)
Definition voorbeeld : Instellingen :=
  {| woningprijs := 2000;
     totale_spaarpot := 1500;
     looptijden := [1%Z];
     rentes := [0];
     etf_rendement := 0;
     etf_volatiliteit := 1;
     simulaties := 2 |}.

(** A generator whose deviates are 0, 1, 2, ... *)
Definition teller : RandomState :=
  {| deviates := fun i => inject_Z (Z.of_nat i); cursor := 0 |}.

(** ** Vocabulary of the optimiser statements *)

(** A row belongs to the group a summary line stands for. *)
Definition same_group (r : Scenario) (o : Optimalisatie) : Prop :=
  s_looptijd r = o_looptijd o /\ s_rente r == o_rente o.

(** Value [v] and down payment [d] are those of the first row of the group
    of [o], in table order, on which column [col] is minimal. *)
Definition selected (col : Scenario -> Q) (rows : list Scenario)
    (o : Optimalisatie) (v : Q) (d : Z) : Prop :=
  exists pre r post,
    rows = pre ++ r :: post /\
    same_group r o /\ col r = v /\ s_inbreng r = d /\
    (forall x, In x pre -> same_group x o -> v < col x) /\
    (forall x, In x post -> same_group x o -> v <= col x).

(** Within one term and rate, the down payments of the cells of a list go
    up strictly from each cell to every later one. *)
Definition ascending (l : list (Z * Q * Z)) : Prop :=
  ForallOrdPairs
    (fun x y => fst (fst x) = fst (fst y) -> snd (fst x) == snd (fst y) ->
                (snd x < snd y)%Z) l.

(** A row of the group (25, 3.8) with the given down payment and costs. *)
Definition voorbeeld_rij (inbreng : Z) (kost_mean kost_worst : Q) : Scenario :=
  {| s_looptijd := 25; s_rente := 38 # 10; s_inbreng := inbreng;
     s_lening := 250000 - inbreng; s_maandlast := 0; s_totale_afbetaling := 0;
     s_etf_gem := 0; s_etf_worst := 0;
     s_netto_kost_mean := kost_mean; s_netto_kost_worst := kost_worst |}.

(** ** Vocabulary of the reproducibility statements *)

(** Two generator states that will deliver the same deviates from now on. *)
Definition same_stream (s1 s2 : RandomState) : Prop :=
  forall k, deviates s1 (cursor s1 + k) = deviates s2 (cursor s2 + k).

(** Two runs end alike: the same value and generators that still agree, or
    the same exception. *)
Definition agree {A} (x y : result (A * RandomState)) : Prop :=
  match x, y with
  | Ok (a1, s1), Ok (a2, s2) => a1 = a2 /\ same_stream s1 s2
  | Raise e1, Raise e2 => e1 = e2
  | _, _ => False
  end.

(** A computation whose outcome depends on the generator only through the
    deviates it will deliver. *)
Definition uniform {A} (m : M A) : Prop :=
  forall s1 s2, same_stream s1 s2 -> agree (m s1) (m s2).

(** The generator [teller] seen five deviates later in another numbering. *)
Definition teller_verschoven : RandomState :=
  {| deviates := fun i => inject_Z (Z.of_nat (i - 5)); cursor := 5 |}.

(** ** Vocabulary of the further table statements *)

(** The investment columns of a row come from one simulation of the savings
    that are left after the down payment. *)
Definition etf_ok (c : Instellingen) (r : Scenario) : Prop :=
  exists eindwaarden s s',
    monte_carlo_etf_return (inject_Z (totale_spaarpot c - s_inbreng r))
      (etf_rendement c) (etf_volatiliteit c) (s_looptijd r) (simulaties c) s =
      Ok (eindwaarden, s') /\
    Np.mean eindwaarden = Ok (s_etf_gem r) /\
    Np.percentile eindwaarden 5 = Ok (s_etf_worst r).

(** The deviates a table has cost: trials times years for each of its rows. *)
Definition deviates_used (c : Instellingen) (rows : list Scenario) : nat :=
  list_sum (map (fun r => (Z.to_nat (simulaties c) * Z.to_nat (s_looptijd r))%nat)
                rows).

(** ** Vocabulary of the further optimiser statements *)

(** The group a summary line stands for. *)
Definition line_key (o : Optimalisatie) : Pd.key := (o_looptijd o, o_rente o).

(** The strict lexicographic order on group keys. *)
Definition key_lt (k1 k2 : Pd.key) : Prop :=
  (fst k1 < fst k2)%Z \/ (fst k1 = fst k2 /\ snd k1 < snd k2).

(** ** The view of one scenario *)

(** [df[(df["Looptijd (j)"] == looptijd_sel) & (df["Rente (%)"] == rente_sel)]] *)
Definition df_sel (df : Pd.DataFrame) (looptijd_sel : Z) (rente_sel : Q) :
    Pd.DataFrame :=
  filter (fun ir => (s_looptijd (snd ir) =? looptijd_sel)%Z &&
                    Qeq_bool (s_rente (snd ir)) rente_sel) df.

(** [df_sel.loc[df_sel[col].idxmin(), "Inbreng (€)"]]: where the chart draws
    the dashed vertical line of column [col]. *)
Definition axvline (col : Scenario -> Q) (sel : Pd.DataFrame) : result Z :=
  (let? i := Pd.idxmin col sel in
   let? row := Pd.loc sel i in
   Ok (s_inbreng row))%result.

(** [df_sel[df_sel["Inbreng (€)"] == chosen_inbreng]] *)
Definition details (sel : Pd.DataFrame) (chosen_inbreng : Z) : Pd.DataFrame :=
  filter (fun ir => (s_inbreng (snd ir) =? chosen_inbreng)%Z) sel.

(** [details.iloc[0]] when [details] is not empty: the row whose columns
    the page prints. *)
Definition detail_row (sel : Pd.DataFrame) (chosen_inbreng : Z) : option Scenario :=
  match details sel chosen_inbreng with
  | [] => None
  | ir :: _ => Some (snd ir)
  end.

(** ** The cost of a scenario without volatility *)

(** What one unit borrowed at [rente] percent over [t] years costs in
    total. *)
Definition loan_factor (rente : Q) (t : Z) : Q :=
  annuity_factor (rente / 100) t * inject_Z t * 12.

(** What one unit invested at the expected return grows to in [t] years. *)
Definition growth_factor (c : Instellingen) (t : Z) : Q :=
  (1 + etf_rendement c) ^ t.

(** The net cost of the cell with down payment [E]: the price less [E] is
    borrowed, the savings less [E] are invested. *)
Definition flat_cost (c : Instellingen) (t : Z) (rente : Q) (E : Z) : Q :=
  inject_Z (woningprijs c - E) * loan_factor rente t -
  inject_Z (totale_spaarpot c - E) * growth_factor c t.

(** The largest down payment of the grid that does not exceed the price. *)
Definition max_inbreng (c : Instellingen) : Z :=
  (1000 * (Z.min (totale_spaarpot c) (woningprijs c) / 1000))%Z.

(** ** The amortisation on binary64 *)

(** The rational model above reads the arithmetic of [maandlast] without
    rounding.  This module reads it on Python floats, with the operations
    of IEEE binary64.  It is partial: where the outcome is decided by the C
    library's [pow], by the rules for infinite operands, or by an integer
    too large to become a float, the model answers [None]. *)
Module B64.

Local Open Scope float_scope.

(** An outcome the model can determine, or [None]. *)
Definition partial (A : Type) : Type := option (result A).

Definition bind {A B} (x : partial A) (f : A -> partial B) : partial B :=
  match x with
  | Some (Ok a) => f a
  | Some (Raise e) => Some (Raise e)
  | None => None
  end.

(** A Python int as a float operand: exact up to [2^53] in magnitude. *)
Definition of_int (z : Z) : option float :=
  if (Z.abs z <=? 2 ^ 53)%Z then
    Some (if (z <? 0)%Z then - of_uint63 (Uint63.of_Z (- z))
          else of_uint63 (Uint63.of_Z z))
  else None.

(** [a / b] on floats. *)
Definition div (a b : float) : result float :=
  if b =? 0 then Raise ZeroDivisionError else Ok (a / b).

(** [v ** n] for a float [v] and an int [n]: the cases CPython's
    [float_pow] settles before it calls the C library, in its order. *)
Definition pow (v : float) (n : Z) : partial float :=
  match of_int n with
  | None => None
  | Some _ =>
      if (n =? 0)%Z then Some (Ok 1)
      else if is_nan v then Some (Ok v)
      else if is_infinity v then None
      else if v =? 0 then
        if (n <? 0)%Z then Some (Raise ZeroDivisionError)
        else Some (Ok (if Z.odd n then v else 0))
      else if v =? 1 then Some (Ok 1)
      else if v =? -1 then Some (Ok (if Z.odd n then -1 else 1))
      else None
  end.

(** [def maandlast(principal, annual_rate, years)] on floats. *)
Definition maandlast (principal annual_rate : float) (years : Z) : partial float :=
  let r := annual_rate / 12 in
  let n := (years * 12)%Z in
  if r =? 0 then
    match of_int n with
    | Some n' => Some (div principal n')
    | None => None
    end
  else
    bind (pow (1 + r) n) (fun g =>
    bind (pow (1 + r) n) (fun g' =>
    Some (div (principal * (r * g)) (g' - 1)))).

(** [def totale_afbetaling(principal, annual_rate, years)] on floats. *)
Definition totale_afbetaling (principal annual_rate : float) (years : Z) :
    partial float :=
  bind (maandlast principal annual_rate years) (fun m =>
    match of_int years with
    | Some y => Some (Ok (m * y * 12))
    | None => None
    end).

(** The float nearest to [1e-16], the value of the Python literal. *)
Definition rate_1e_16 : float := 0x1.cd2b297d889bcp-54.

End B64.

(** ** A run with a tie *)

(** Price 2000, savings 1500, one year at 0 percent, expected return 0 and
    no volatility: the cells with down payment 0 and 1000 both cost 500. *)
Definition gelijkspel : Instellingen :=
  {| woningprijs := 2000;
     totale_spaarpot := 1500;
     looptijden := [1%Z];
     rentes := [0];
     etf_rendement := 0;
     etf_volatiliteit := 0;
     simulaties := 2 |}.

(** * Properties *)

Unset Implicit Arguments.

(** ** Rational arithmetic *)

Lemma Qeq_bool_false_neq (x y : Q) : Qeq_bool x y = false -> ~ x == y.
Proof. intros H E. apply Qeq_bool_iff in E. congruence. Qed.

Lemma Qeq_bool_neq_false (x y : Q) : ~ x == y -> Qeq_bool x y = false.
Proof.
  intros H. destruct (Qeq_bool x y) eqn:E; [|reflexivity].
  apply Qeq_bool_iff in E. contradiction.
Qed.

Lemma inject_Z_pos (n : Z) : (0 < n)%Z -> 0 < inject_Z n.
Proof. intros H. change 0 with (inject_Z 0). now rewrite <- Zlt_Qlt. Qed.

Lemma monthly_rate_nonneg (a : Q) : 0 <= a -> 0 <= a / 12.
Proof. intros H. apply Qle_shift_div_l; [reflexivity | lra]. Qed.

Lemma growth_gt_1 (r : Q) (n : Z) : 0 < r -> (0 < n)%Z -> 1 < (1 + r) ^ n.
Proof. intros Hr Hn. apply Qpower_1_lt; [lra | exact Hn]. Qed.

Lemma pow_ok (r : Q) (n : Z) : 0 <= r -> Py.pow (1 + r) n = Ok ((1 + r) ^ n).
Proof.
  intros Hr. unfold Py.pow.
  rewrite (Qeq_bool_neq_false (1 + r) 0) by lra. reflexivity.
Qed.

Lemma div_ok (a b : Q) : ~ b == 0 -> Py.div a b = Ok (a / b).
Proof. intros H. unfold Py.div. now rewrite Qeq_bool_neq_false. Qed.

Lemma div_zero (a b : Q) : b == 0 -> Py.div a b = Raise ZeroDivisionError.
Proof. intros H. unfold Py.div. apply Qeq_bool_iff in H. now rewrite H. Qed.

Lemma maandlast_valid (P a : Q) (N : Z) :
  0 <= a -> (0 < N)%Z ->
  maandlast P a N =
    Ok (if Qeq_bool (a / 12) 0 then P / inject_Z (N * 12)
        else P * (a / 12 * (1 + a / 12) ^ (N * 12)) / ((1 + a / 12) ^ (N * 12) - 1)).
Proof.
  intros Ha HN. unfold maandlast.
  destruct (Qeq_bool (a / 12) 0) eqn:E.
  - apply div_ok. intros H.
    assert (0 < inject_Z (N * 12)) by (apply inject_Z_pos; lia). lra.
  - apply Qeq_bool_false_neq in E.
    assert (Hr : 0 < a / 12) by (pose proof (monthly_rate_nonneg _ Ha); lra).
    rewrite pow_ok by lra. cbn [rbind].
    apply div_ok.
    assert (1 < (1 + a / 12) ^ (N * 12)) by (apply growth_gt_1; [lra | lia]). lra.
Qed.

Lemma maandlast_zero_years (P a : Q) : maandlast P a 0 = Raise ZeroDivisionError.
Proof.
  unfold maandlast. cbn [Z.mul].
  destruct (Qeq_bool (a / 12) 0).
  - now apply div_zero.
  - unfold Py.pow. rewrite Z.ltb_irrefl, andb_false_r. cbn [rbind].
    apply div_zero. cbn [Qpower]. ring.
Qed.

Lemma growth_succ (r : Q) (k : nat) :
  0 < r -> (1 + r) ^ Z.of_nat (S k) == (1 + r) * (1 + r) ^ Z.of_nat k.
Proof.
  intros Hr. rewrite Nat2Z.inj_succ. unfold Z.succ.
  rewrite Qpower_plus by lra. rewrite Qpower_1_r. ring.
Qed.

Lemma growth_ge_1 (r : Q) (k : nat) : 0 < r -> 1 <= (1 + r) ^ Z.of_nat k.
Proof. intros Hr. apply Qpower_1_le; [lra | lia]. Qed.

Lemma inject_Z_succ (k : nat) :
  inject_Z (Z.of_nat (S k)) == inject_Z (Z.of_nat k) + 1.
Proof. rewrite Nat2Z.inj_succ. unfold Z.succ. now rewrite inject_Z_plus. Qed.

(** [(1+r)^k - 1 <= k r (1+r)^k]: the interest factor is bounded by the
    number of periods times the last period's rate of growth. *)
Lemma interest_bound_le (r : Q) (k : nat) :
  0 < r ->
  (1 + r) ^ Z.of_nat k - 1 <= inject_Z (Z.of_nat k) * r * (1 + r) ^ Z.of_nat k.
Proof.
  intros Hr. induction k as [|k IH].
  - change (1 - 1 <= 0 * r * 1). lra.
  - rewrite growth_succ, inject_Z_succ by exact Hr.
    pose proof (growth_ge_1 r k Hr) as Hx.
    set (x := (1 + r) ^ Z.of_nat k) in *.
    set (n := inject_Z (Z.of_nat k)) in *.
    assert (H1 : 0 <= (1 + r) * (n * r * x - (x - 1))).
    { apply Qmult_le_0_compat; lra. }
    assert (H2 : 0 <= r * ((1 + r) * x - 1)).
    { apply Qmult_le_0_compat; [lra|].
      assert (0 <= r * x) by (apply Qmult_le_0_compat; lra). lra. }
    lra.
Qed.

Lemma interest_bound_lt (r : Q) (n : Z) :
  0 < r -> (0 < n)%Z ->
  (1 + r) ^ n - 1 < inject_Z n * r * (1 + r) ^ n.
Proof.
  intros Hr Hn.
  destruct (Z.to_nat n) as [|k] eqn:Ek; [lia|].
  replace n with (Z.of_nat (S k)) by lia.
  rewrite growth_succ, inject_Z_succ by exact Hr.
  pose proof (growth_ge_1 r k Hr) as Hx.
  pose proof (interest_bound_le r k Hr) as IH.
  set (x := (1 + r) ^ Z.of_nat k) in *.
  set (m := inject_Z (Z.of_nat k)) in *.
  assert (H1 : 0 <= (1 + r) * (m * r * x - (x - 1))).
  { apply Qmult_le_0_compat; lra. }
  assert (H2 : 0 < r * ((1 + r) * x - 1)).
  { apply Qmult_lt_0_compat; [lra|].
    assert (0 < r * x) by (apply Qmult_lt_0_compat; lra). lra. }
  lra.
Qed.

Lemma annuity_factor_pos (a : Q) (N : Z) :
  0 <= a -> (0 < N)%Z -> 0 < annuity_factor a N.
Proof.
  intros Ha HN. unfold annuity_factor.
  destruct (Qeq_bool (a / 12) 0) eqn:E.
  - apply Qinv_lt_0_compat, inject_Z_pos. lia.
  - apply Qeq_bool_false_neq in E.
    assert (Hr : 0 < a / 12) by (pose proof (monthly_rate_nonneg _ Ha); lra).
    assert (Hg : 1 < (1 + a / 12) ^ (N * 12)) by (apply growth_gt_1; [lra | lia]).
    apply Qlt_shift_div_l; [lra|]. rewrite Qmult_0_l.
    apply Qmult_lt_0_compat; lra.
Qed.

Lemma maandlast_linear (P a : Q) (N : Z) :
  0 <= a -> (0 < N)%Z ->
  exists m, maandlast P a N = Ok m /\ m == P * annuity_factor a N.
Proof.
  intros Ha HN. rewrite maandlast_valid by assumption.
  eexists; split; [reflexivity|].
  unfold annuity_factor. destruct (Qeq_bool (a / 12) 0); unfold Qdiv; ring.
Qed.

(** ** The rate at which the annuity formula is undefined *)

Lemma Qpower_lt_1 (y : Q) (m : Z) : 0 <= y -> y < 1 -> (0 < m)%Z -> y ^ m < 1.
Proof.
  intros H0 H1 Hm. destruct (Qeq_dec y 0) as [E|E].
  - rewrite E, Qpower_0 by lia. reflexivity.
  - assert (Hy : 0 < y) by lra.
    assert (Hi : 1 < / y).
    { apply Qlt_shift_inv_l; [exact Hy | lra]. }
    pose proof (Qpower_1_lt (/ y) m Hi Hm) as Hp.
    rewrite Qinv_power in Hp.
    pose proof (Qpower_0_lt y m Hy) as Hpos.
    set (p := y ^ m) in *.
    apply (Qmult_lt_r _ _ p Hpos) in Hp.
    assert (Ep : / p * p == 1) by (field; lra).
    rewrite Ep in Hp. lra.
Qed.

(** With an even positive number of periods the growth factor is 1 only at
    the monthly rates 0 and -2. *)
Lemma growth_ne_1 (r : Q) (N : Z) :
  (0 < N)%Z -> ~ r == 0 -> ~ r == -2 -> ~ (1 + r) ^ (N * 12) == 1.
Proof.
  intros HN H0 H2.
  replace (N * 12)%Z with (2 * (N * 6))%Z by lia.
  rewrite Qpower_mult.
  pose proof (Qsqr_nonneg (1 + r)) as Hy.
  assert (Ey : (1 + r) ^ 2 == (1 + r) * (1 + r)) by (cbn; ring).
  set (y := (1 + r) ^ 2) in *.
  destruct (Q_dec y 1) as [[Hlt|Hgt]|Heq].
  - pose proof (Qpower_lt_1 y (N * 6) Hy Hlt ltac:(lia)). lra.
  - pose proof (Qpower_1_lt y (N * 6) Hgt ltac:(lia)). lra.
  - exfalso. rewrite Ey in Heq.
    assert (Hz : r * (r + 2) == 0) by (ring_simplify; ring_simplify in Heq; lra).
    apply Qmult_integral in Hz as [Hz|Hz]; [now apply H0 | apply H2; lra].
Qed.

(** [maandlast] on a term of [N > 0] years, at any rate but -24. *)
Lemma maandlast_defined (P a : Q) (N : Z) :
  (0 < N)%Z -> ~ a == -24 ->
  maandlast P a N =
    Ok (if Qeq_bool (a / 12) 0 then P / inject_Z (N * 12)
        else P * (a / 12 * (1 + a / 12) ^ (N * 12)) / ((1 + a / 12) ^ (N * 12) - 1)).
Proof.
  intros HN Ha. unfold maandlast.
  destruct (Qeq_bool (a / 12) 0) eqn:E.
  - apply div_ok. intros H.
    assert (0 < inject_Z (N * 12)) by (apply inject_Z_pos; lia). lra.
  - apply Qeq_bool_false_neq in E.
    unfold Py.pow.
    assert (Hn : (N * 12 <? 0)%Z = false) by lia.
    rewrite Hn, andb_false_r. cbn [rbind].
    apply div_ok.
    assert (H2 : ~ a / 12 == -2).
    { intros H. apply Ha. rewrite <- (Qmult_div_r a 12) by discriminate.
      rewrite H. reflexivity. }
    pose proof (growth_ne_1 (a / 12) N HN E H2). lra.
Qed.

(** ** The amortisation claims *)

(** C1.  For a principal [P >= 0] and a term of [N > 0] years, at every
    rate [a] where the formula is defined (every rate but -24, where its
    denominator is zero), [maandlast] returns the annuity payment of the
    specification: [P / n] when the monthly rate is zero and
    [P r (1+r)^n / ((1+r)^n - 1)] otherwise, with [r = a/12] and [n = 12 N];
    [totale_afbetaling] returns that payment times [N] times 12; and at rate
    zero the total equals [P]. *)
Theorem monthly_payment_formula (P a : Q) (N : Z) :
  0 <= P -> (0 < N)%Z -> ~ a == -24 ->
  exists m,
    maandlast P a N = Ok m /\
    m == annuity_formula P a N /\
    totale_afbetaling P a N = Ok (m * inject_Z N * 12) /\
    (a == 0 -> m == P / inject_Z (N * 12) /\ m * inject_Z N * 12 == P).
Proof.
  intros _ HN Ha.
  pose proof (maandlast_defined P a N HN Ha) as Hm.
  eexists. split; [exact Hm|]. split; [|split].
  - unfold annuity_formula.
    destruct (Qeq_bool (a / 12) 0); [reflexivity | unfold Qdiv; ring].
  - unfold totale_afbetaling. rewrite Hm. reflexivity.
  - intros H0.
    assert (E : Qeq_bool (a / 12) 0 = true).
    { apply Qeq_bool_iff. rewrite H0. reflexivity. }
    rewrite E. split; [reflexivity|].
    rewrite inject_Z_mult.
    assert (0 < inject_Z N) by now apply inject_Z_pos.
    change (inject_Z 12) with 12. field. lra.
Qed.

Lemma monthly_payment_formula_witness :
  exists m,
    maandlast 100000 (38 # 1000) 25 = Ok m /\
    m == annuity_formula 100000 (38 # 1000) 25 /\
    totale_afbetaling 100000 (38 # 1000) 25 = Ok (m * inject_Z 25 * 12) /\
    ((38 # 1000) == 0 ->
     m == 100000 / inject_Z (25 * 12) /\ m * inject_Z 25 * 12 == 100000).
Proof.
  apply (monthly_payment_formula 100000 (38 # 1000) 25);
    [vm_compute; discriminate | reflexivity | vm_compute; discriminate].
Defined.

(** A loan of 100000 over 25 years at 3.8 percent costs between 516.85 and
    516.86 a month. *)
Example monthly_payment_example :
  exists m, maandlast 100000 (38 # 1000) 25 = Ok m /\
            51685 # 100 < m /\ m < 51686 # 100.
Proof.
  eexists. split; [vm_compute; reflexivity|]. split; vm_compute; reflexivity.
Qed.

(** At rate zero the twelve payments of one year add up to the principal. *)
Example zero_rate_example :
  exists m, maandlast 1200 0 1 = Ok m /\ m == 100 /\
            exists t, totale_afbetaling 1200 0 1 = Ok t /\ t == 1200.
Proof.
  eexists. split; [vm_compute; reflexivity|]. split; [reflexivity|].
  eexists. split; [vm_compute; reflexivity | reflexivity].
Qed.

(** C4, against the claim as stated: a term of [-1] years is not rejected,
    [maandlast(1200, 0, -1)] returns [-100]; a negative rate is not rejected
    either, [maandlast(8190, -6, 1)] returns [1]. *)
Lemma maandlast_accepts_invalid_input :
  (exists m, maandlast 1200 0 (-1) = Ok m /\ m == -100) /\
  (exists m, maandlast 8190 (-6) 1 = Ok m /\ m == 1).
Proof.
  split; eexists; (split; [vm_compute; reflexivity | reflexivity]).
Qed.

(** C4, amended.  [maandlast] validates nothing.  On Python floats a term
    of zero years raises [ZeroDivisionError] for every principal and every
    rate.  A negative term and a negative rate are not rejected:
    [maandlast(1200.0, 0.0, -1)] returns [-100.0] and
    [maandlast(1000.0, -12.0, 1)] returns [0.0].  And a positive term with a
    rate [>= 0] does not guarantee a result: at the rate [1e-16], where
    [1 + r] rounds to 1, [maandlast(100000.0, 1e-16, 25)] raises
    [ZeroDivisionError]. *)
Theorem maandlast_no_validation :
  (forall P a : float, B64.maandlast P a 0 = Some (Raise ZeroDivisionError)) /\
  B64.maandlast 1200 0 (-1) = Some (Ok (-100)%float) /\
  B64.maandlast 1000 (-12) 1 = Some (Ok 0%float) /\
  B64.maandlast 100000 B64.rate_1e_16 25 = Some (Raise ZeroDivisionError).
Proof.
  split; [|repeat split; vm_compute; reflexivity].
  intros P a. unfold B64.maandlast. cbv zeta.
  destruct (PrimFloat.eqb (a / 12) 0); reflexivity.
Qed.

(** C6, against the claim as stated: with a principal of zero the total
    repaid is zero, which does not exceed the principal. *)
Lemma total_repaid_zero_principal :
  exists t, totale_afbetaling 0 (5 # 100) 1 = Ok t /\ ~ 0 < t.
Proof.
  eexists; split; [vm_compute; reflexivity | vm_compute; discriminate].
Qed.

Lemma annuity_exceeds_principal (P a : Q) (N : Z) :
  0 < P -> 0 < a -> (0 < N)%Z ->
  P < annuity_formula P a N * inject_Z N * 12.
Proof.
  intros HP Ha HN. unfold annuity_formula.
  assert (Hr : 0 < a / 12) by (apply Qlt_shift_div_l; lra).
  rewrite (Qeq_bool_neq_false (a / 12) 0) by lra.
  assert (Hg : 1 < (1 + a / 12) ^ (N * 12)) by (apply growth_gt_1; [lra | lia]).
  pose proof (interest_bound_lt (a / 12) (N * 12) Hr ltac:(lia)) as Hb.
  rewrite inject_Z_mult in Hb. change (inject_Z 12) with 12 in Hb.
  set (r := a / 12) in *. set (g := (1 + r) ^ (N * 12)) in *.
  set (n := inject_Z N) in *.
  assert (E : P * r * g / (g - 1) * n * 12 == P * (n * 12 * r * g) / (g - 1)).
  { field. lra. }
  rewrite E. apply Qlt_shift_div_l; [lra|].
  apply Qmult_lt_l; [exact HP | exact Hb].
Qed.

(** C6, amended.  For a principal [P > 0], a rate [a > 0] and a term of
    [N > 0] years, the exact value of the annuity formula times [N] times
    12, which is the total the code evaluates when nothing is rounded,
    strictly exceeds the principal.  The binary64 evaluation does not
    inherit this for every rate: at the rate [1e-16], where [1 + r] rounds
    to 1, [totale_afbetaling(100000.0, 1e-16, 25)] raises
    [ZeroDivisionError] and gives no total. *)
Theorem exact_total_exceeds_principal :
  (forall (P a : Q) (N : Z),
     0 < P -> 0 < a -> (0 < N)%Z ->
     exists t,
       totale_afbetaling P a N = Ok t /\
       t == annuity_formula P a N * inject_Z N * 12 /\
       P < annuity_formula P a N * inject_Z N * 12) /\
  B64.totale_afbetaling 100000 B64.rate_1e_16 25 =
    Some (Raise ZeroDivisionError).
Proof.
  split; [|vm_compute; reflexivity].
  intros P a N HP Ha HN.
  assert (Ha' : 0 <= a) by lra.
  pose proof (maandlast_valid P a N Ha' HN) as Hm.
  unfold totale_afbetaling. rewrite Hm. cbn [rbind].
  eexists. split; [reflexivity|]. split.
  - unfold annuity_formula.
    destruct (Qeq_bool (a / 12) 0); unfold Qdiv; ring.
  - now apply annuity_exceeds_principal.
Qed.

Lemma exact_total_exceeds_principal_witness :
  exists t,
    totale_afbetaling 100000 (38 # 1000) 25 = Ok t /\
    t == annuity_formula 100000 (38 # 1000) 25 * inject_Z 25 * 12 /\
    100000 < annuity_formula 100000 (38 # 1000) 25 * inject_Z 25 * 12.
Proof.
  apply (proj1 exact_total_exceeds_principal 100000 (38 # 1000) 25%Z);
    reflexivity.
Defined.

(** ** The generator and the simulation *)

Lemma legacy_normal_run (loc scale : Q) (d : nat -> Q) (c : nat) :
  Np.legacy_normal loc scale {| deviates := d; cursor := c |} =
  Ok (loc + scale * d c, {| deviates := d; cursor := S c |}).
Proof. reflexivity. Qed.

Lemma fill_normal (loc scale : Q) (d : nat -> Q) (k c : nat) :
  Np.fill k (Np.legacy_normal loc scale) {| deviates := d; cursor := c |} =
  Ok (returns_at d loc scale c k, {| deviates := d; cursor := c + k |}).
Proof.
  revert c. induction k as [|k IH]; intros c.
  - cbn. now rewrite Nat.add_0_r.
  - cbn [Np.fill]. unfold bind at 1. rewrite legacy_normal_run.
    unfold bind at 1. rewrite IH. unfold ret, returns_at.
    cbn [seq map]. rewrite <- seq_shift, map_map, Nat.add_0_r.
    f_equal. f_equal.
    + f_equal. apply map_ext. intros j. do 3 f_equal. lia.
    + f_equal. lia.
Qed.

Lemma fill_rows (loc scale : Q) (d : nat -> Q) (cols rows c : nat) :
  Np.fill rows (Np.fill cols (Np.legacy_normal loc scale))
    {| deviates := d; cursor := c |} =
  Ok (map (fun i => returns_at d loc scale (c + i * cols) cols) (seq 0 rows),
      {| deviates := d; cursor := c + rows * cols |}).
Proof.
  revert c. induction rows as [|rows IH]; intros c.
  - cbn. now rewrite Nat.add_0_r.
  - cbn [Np.fill]. unfold bind at 1. rewrite fill_normal.
    unfold bind at 1. rewrite IH. unfold ret.
    cbn [seq map]. rewrite <- seq_shift, map_map.
    f_equal. f_equal.
    + f_equal.
      * f_equal. lia.
      * apply map_ext. intros i. f_equal. lia.
    + f_equal. lia.
Qed.

Lemma last_cumprod_from (acc d : Q) (l : list Q) :
  last (acc :: Np.cumprod_from acc l) d = fold_left Qmult l acc.
Proof.
  revert acc. induction l as [|x l IH]; intros acc; [reflexivity|].
  cbn [Np.cumprod_from fold_left]. rewrite <- IH. reflexivity.
Qed.

Lemma fold_left_Qmult_scale (l : list Q) (acc : Q) :
  fold_left Qmult l acc == acc * fold_right Qmult 1 l.
Proof.
  revert acc. induction l as [|x l IH]; intros acc; cbn.
  - ring.
  - rewrite IH. ring.
Qed.

(** The last entry of the cumulative product of [1 + x] is the compounded
    growth of the trial. *)
Lemma last_cumprod_compound (l : list Q) :
  l <> [] -> last (Np.cumprod (map (Qplus 1) l)) 0 == compound l.
Proof.
  destruct l as [|x l]; [congruence|]. intros _.
  cbn [map Np.cumprod]. rewrite last_cumprod_from, fold_left_Qmult_scale.
  cbn [compound fold_right].
  apply Qmult_comp; [reflexivity|].
  induction l as [|y l IH]; cbn; [reflexivity|]. now rewrite IH.
Qed.

Lemma returns_at_length (d : nat -> Q) (loc scale : Q) (base k : nat) :
  length (returns_at d loc scale base k) = k.
Proof. unfold returns_at. now rewrite length_map, length_seq. Qed.

Lemma returns_at_nonempty (d : nat -> Q) (loc scale : Q) (base k : nat) :
  (0 < k)%nat -> returns_at d loc scale base k <> [].
Proof.
  intros Hk E. apply (f_equal (@length Q)) in E.
  rewrite returns_at_length in E. cbn in E. lia.
Qed.

(** What [monte_carlo_etf_return] computes, on valid arguments. *)
Lemma monte_carlo_run (start mean vol : Q) (years n : Z) (s : RandomState) :
  0 <= vol -> (0 < years)%Z -> (0 <= n)%Z ->
  monte_carlo_etf_return start mean vol years n s =
  Ok (map (fun i => start *
             last (Np.cumprod (map (Qplus 1)
                     (trial_returns s mean vol (Z.to_nat years) i))) 0)
          (seq 0 (Z.to_nat n)),
      advance s (Z.to_nat n * Z.to_nat years)).
Proof.
  intros Hv Hy Hn. destruct s as [d c].
  unfold monte_carlo_etf_return, Np.random_normal.
  assert (E1 : Qlt_bool vol 0 = false).
  { unfold Qlt_bool. apply negb_false_iff, Qle_bool_iff, Hv. }
  assert (E2 : (n <? 0)%Z = false) by lia.
  assert (E3 : (years <? 0)%Z = false) by lia.
  rewrite E1, E2, E3. cbn [orb].
  unfold bind at 1. rewrite fill_rows.
  unfold Np.last_column.
  assert (E4 : (years =? 0)%Z = false) by lia.
  rewrite E4. unfold lift, bind, ret, advance, trial_returns.
  cbn [deviates cursor]. rewrite !map_map. reflexivity.
Qed.

Lemma nth_error_map_seq {A} (f : nat -> A) (n i : nat) :
  (i < n)%nat -> nth_error (map f (seq 0 n)) i = Some (f i).
Proof.
  intros Hi. rewrite nth_error_map, nth_error_seq.
  destruct (Nat.ltb_spec i n); [reflexivity | lia].
Qed.

(** ** Statistics of a constant sample *)

Lemma compound_const (m : Q) (l : list Q) :
  all_eq m l -> compound l == (1 + m) ^ Z.of_nat (length l).
Proof.
  induction 1 as [|x l Hx _ IH]; [reflexivity|].
  cbn [compound fold_right length]. fold (compound l).
  rewrite IH, Hx, Nat2Z.inj_succ. unfold Z.succ.
  destruct (Qeq_dec (1 + m) 0) as [E|E].
  - rewrite E, Qmult_0_l. symmetry. apply Qpower_0. lia.
  - rewrite Qpower_plus, Qpower_1_r by exact E. ring.
Qed.

Lemma returns_at_zero_scale (d : nat -> Q) (loc scale : Q) (base k : nat) :
  scale == 0 -> all_eq loc (returns_at d loc scale base k).
Proof.
  intros Hs. apply Forall_forall. intros x Hx.
  apply in_map_iff in Hx. destruct Hx as [j [<- _]].
  rewrite Hs. ring.
Qed.

Lemma sum_from_const (v : Q) (l : list Q) (acc : Q) :
  all_eq v l -> fold_left Qplus l acc == acc + inject_Z (Z.of_nat (length l)) * v.
Proof.
  intros H. revert acc. induction H as [|x l Hx _ IH]; intros acc.
  - cbn. ring.
  - cbn [fold_left length]. rewrite IH, Hx, inject_Z_succ. ring.
Qed.

Lemma mean_const (v : Q) (l : list Q) :
  l <> [] -> all_eq v l -> exists m, Np.mean l = Ok m /\ m == v.
Proof.
  intros Hne H. destruct l as [|x l]; [congruence|].
  eexists; split; [reflexivity|].
  unfold Np.sum. rewrite (sum_from_const v _ 0 H).
  assert (0 < inject_Z (Z.of_nat (length (x :: l)))).
  { apply inject_Z_pos. cbn [length]. lia. }
  field. lra.
Qed.

Lemma insert_all_eq (v x : Q) (l : list Q) :
  x == v -> all_eq v l -> all_eq v (Np.insert x l).
Proof.
  intros Hx H. induction H as [|y l Hy Hl IH]; cbn.
  - now repeat constructor.
  - destruct (Qle_bool x y); repeat constructor; assumption.
Qed.

Lemma sort_all_eq (v : Q) (l : list Q) : all_eq v l -> all_eq v (Np.sort l).
Proof.
  induction 1 as [|x l Hx _ IH]; cbn; [constructor|].
  now apply insert_all_eq.
Qed.

Lemma insert_length (x : Q) (l : list Q) : length (Np.insert x l) = S (length l).
Proof.
  induction l as [|y l IH]; cbn; [reflexivity|].
  destruct (Qle_bool x y); cbn; [reflexivity | now rewrite IH].
Qed.

Lemma sort_length (l : list Q) : length (Np.sort l) = length l.
Proof.
  induction l as [|x l IH]; cbn; [reflexivity|].
  now rewrite insert_length, IH.
Qed.

Lemma all_eq_nth (v : Q) (l : list Q) (i : nat) :
  all_eq v l -> (i < length l)%nat -> nth i l 0 == v.
Proof.
  intros H Hi. unfold all_eq in H. rewrite Forall_forall in H.
  apply H, nth_In, Hi.
Qed.

(** The virtual index of a percentile stays inside the sample. *)
Lemma virtual_index_bound (q : Q) (n : nat) :
  0 <= q -> q <= 100 ->
  (Z.to_nat (Qfloor (q / 100 * inject_Z (Z.of_nat n))) <= n)%nat.
Proof.
  intros H0 H1.
  assert (Hn : 0 <= inject_Z (Z.of_nat n)).
  { change 0 with (inject_Z 0). rewrite <- Zle_Qle. lia. }
  assert (Hq : q / 100 <= 1) by (apply Qle_shift_div_r; lra).
  assert (Hp : q / 100 * inject_Z (Z.of_nat n) <= inject_Z (Z.of_nat n)).
  { rewrite <- (Qmult_1_l (inject_Z (Z.of_nat n))) at 2.
    apply Qmult_le_compat_r; assumption. }
  pose proof (Qfloor_le (q / 100 * inject_Z (Z.of_nat n))) as Hf.
  assert (Hz : (Qfloor (q / 100 * inject_Z (Z.of_nat n)) <= Z.of_nat n)%Z).
  { rewrite Zle_Qle. lra. }
  lia.
Qed.

Lemma percentile_const (v q : Q) (l : list Q) :
  0 <= q -> q <= 100 -> l <> [] -> all_eq v l ->
  exists p, Np.percentile l q = Ok p /\ p == v.
Proof.
  intros H0 H1 Hne H. destruct l as [|x l]; [congruence|].
  unfold Np.percentile.
  assert (E0 : Qlt_bool q 0 = false).
  { unfold Qlt_bool. apply negb_false_iff, Qle_bool_iff, H0. }
  assert (E1 : Qlt_bool 100 q = false).
  { unfold Qlt_bool. apply negb_false_iff, Qle_bool_iff, H1. }
  rewrite E0, E1. cbn [orb].
  eexists; split; [reflexivity|].
  cbv zeta.
  set (n := length (x :: l)).
  pose proof (virtual_index_bound q (n - 1) H0 H1) as Hlo.
  assert (Hn : (0 < n)%nat) by (subst n; cbn [length]; lia).
  pose proof (sort_all_eq v _ H) as Hs.
  rewrite (all_eq_nth v (Np.sort (x :: l)) _ Hs)
    by (rewrite sort_length; fold n; lia).
  rewrite (all_eq_nth v (Np.sort (x :: l)) _ Hs)
    by (rewrite sort_length; fold n; lia).
  ring.
Qed.

(** ** The simulation claims *)

(** C5.  On a request with [years > 0], [n >= 0] trials and a volatility
    [>= 0], the simulator returns exactly [n] terminal values.  Trial [i]
    reads [years] deviates of its own, at positions
    [cursor + i * years + j], turns them into returns [mean + vol * z], and
    its terminal value is [start] times the last entry of the cumulative
    product of [1 + return], which is the product of all [1 + return]. *)
Theorem simulation_terminal_values
    (start mean vol : Q) (years n : Z) (s : RandomState) :
  0 <= vol -> (0 < years)%Z -> (0 <= n)%Z ->
  exists vals,
    monte_carlo_etf_return start mean vol years n s =
      Ok (vals, advance s (Z.to_nat n * Z.to_nat years)) /\
    length vals = Z.to_nat n /\
    forall i, (i < Z.to_nat n)%nat ->
      let samples := trial_returns s mean vol (Z.to_nat years) i in
      length samples = Z.to_nat years /\
      (forall j, (j < Z.to_nat years)%nat ->
         nth_error samples j =
           Some (mean + vol * deviates s (cursor s + i * Z.to_nat years + j))) /\
      exists v,
        nth_error vals i = Some v /\
        v = start * last (Np.cumprod (map (Qplus 1) samples)) 0 /\
        v == start * compound samples.
Proof.
  intros Hv Hy Hn. eexists. split; [apply monte_carlo_run; assumption|].
  split; [now rewrite length_map, length_seq|].
  intros i Hi samples. subst samples. split; [apply returns_at_length|].
  split.
  - intros j Hj. unfold trial_returns, returns_at.
    now rewrite nth_error_map_seq.
  - eexists. split; [now apply nth_error_map_seq|]. split; [reflexivity|].
    rewrite last_cumprod_compound; [reflexivity|].
    apply returns_at_nonempty. lia.
Qed.

Lemma simulation_terminal_values_witness :
  let s := {| deviates := fun i => inject_Z (Z.of_nat i); cursor := 0 |} in
  exists vals,
    monte_carlo_etf_return 1500 0 1 1 2 s =
      Ok (vals, advance s (Z.to_nat 2 * Z.to_nat 1)) /\
    length vals = Z.to_nat 2 /\
    forall i, (i < Z.to_nat 2)%nat ->
      let samples := trial_returns s 0 1 (Z.to_nat 1) i in
      length samples = Z.to_nat 1 /\
      (forall j, (j < Z.to_nat 1)%nat ->
         nth_error samples j =
           Some (0 + 1 * deviates s (cursor s + i * Z.to_nat 1 + j))) /\
      exists v,
        nth_error vals i = Some v /\
        v = 1500 * last (Np.cumprod (map (Qplus 1) samples)) 0 /\
        v == 1500 * compound samples.
Proof.
  intros s.
  apply (simulation_terminal_values 1500 0 1 1 2 s);
    [vm_compute; discriminate | reflexivity | vm_compute; discriminate].
Defined.

Lemma monte_carlo_all_eq (start mean vol v : Q) (years n : Z) (s : RandomState) :
  0 <= vol -> (0 < years)%Z -> (0 <= n)%Z ->
  (forall i, start * compound (trial_returns s mean vol (Z.to_nat years) i) == v) ->
  exists vals s',
    monte_carlo_etf_return start mean vol years n s = Ok (vals, s') /\
    length vals = Z.to_nat n /\
    all_eq v vals.
Proof.
  intros Hv Hy Hn Hc. do 2 eexists.
  split; [apply monte_carlo_run; assumption|].
  split; [now rewrite length_map, length_seq|].
  apply Forall_forall. intros x Hx. apply in_map_iff in Hx.
  destruct Hx as [i [<- _]].
  rewrite last_cumprod_compound by (apply returns_at_nonempty; lia).
  apply Hc.
Qed.

(** C8.  On a request with [years > 0] and [K > 0] trials: with volatility
    zero all [K] terminal values equal [start * (1 + mean)^years], and so do
    their mean and their 5th percentile; with an initial capital of zero
    every terminal value is zero, whatever the deviates are. *)
Theorem degenerate_simulations
    (start mean vol : Q) (years K : Z) (s : RandomState) :
  (0 < years)%Z -> (0 < K)%Z ->
  (vol == 0 ->
   exists vals s',
     monte_carlo_etf_return start mean vol years K s = Ok (vals, s') /\
     length vals = Z.to_nat K /\
     all_eq (start * (1 + mean) ^ years) vals /\
     exists m p,
       Np.mean vals = Ok m /\ m == start * (1 + mean) ^ years /\
       Np.percentile vals 5 = Ok p /\ p == start * (1 + mean) ^ years) /\
  (0 <= vol -> start == 0 ->
   exists vals s',
     monte_carlo_etf_return start mean vol years K s = Ok (vals, s') /\
     length vals = Z.to_nat K /\
     all_eq 0 vals).
Proof.
  intros Hy HK. split.
  - intros Hv.
    destruct (monte_carlo_all_eq start mean vol (start * (1 + mean) ^ years)
                years K s) as (vals & s' & Hrun & Hlen & Hall).
    + rewrite Hv. apply Qle_refl.
    + exact Hy.
    + lia.
    + intros i. rewrite compound_const
        by (apply returns_at_zero_scale; exact Hv).
      unfold trial_returns.
      rewrite returns_at_length, Z2Nat.id by lia. reflexivity.
    + exists vals, s'. repeat split; try assumption.
      assert (Hne : vals <> []).
      { intros ->. cbn in Hlen. lia. }
      destruct (mean_const _ _ Hne Hall) as (m & Hm & Em).
      destruct (percentile_const _ 5 _ ltac:(lra) ltac:(lra) Hne Hall)
        as (p & Hp & Ep).
      exists m, p. repeat split; assumption.
  - intros Hv H0.
    apply monte_carlo_all_eq; [exact Hv | exact Hy | lia |].
    intros i. rewrite H0. ring.
Qed.

Lemma degenerate_simulations_witness :
  let s := {| deviates := fun i => inject_Z (Z.of_nat i); cursor := 0 |} in
  (exists vals s',
     monte_carlo_etf_return 1000 (9 # 100) 0 2 3 s = Ok (vals, s') /\
     length vals = Z.to_nat 3 /\
     all_eq (1000 * (1 + (9 # 100)) ^ 2) vals /\
     exists m p,
       Np.mean vals = Ok m /\ m == 1000 * (1 + (9 # 100)) ^ 2 /\
       Np.percentile vals 5 = Ok p /\ p == 1000 * (1 + (9 # 100)) ^ 2) /\
  (exists vals s',
     monte_carlo_etf_return 0 (9 # 100) (15 # 100) 2 3 s = Ok (vals, s') /\
     length vals = Z.to_nat 3 /\
     all_eq 0 vals).
Proof.
  intros s. split.
  - apply (proj1 (degenerate_simulations 1000 (9 # 100) 0 2 3 s
                    eq_refl eq_refl)). reflexivity.
  - apply (proj2 (degenerate_simulations 0 (9 # 100) (15 # 100) 2 3 s
                    eq_refl eq_refl)); [vm_compute; discriminate | reflexivity].
Defined.

(** ** Running the loops *)

Lemma bind_inv {A B} (m : M A) (f : A -> M B) (s s' : RandomState) (b : B) :
  bind m f s = Ok (b, s') ->
  exists a s1, m s = Ok (a, s1) /\ f a s1 = Ok (b, s').
Proof.
  unfold bind. destruct (m s) as [[a s1]|e]; [|discriminate].
  intros H. now exists a, s1.
Qed.

Lemma lift_inv {A} (x : result A) (s s' : RandomState) (a : A) :
  lift x s = Ok (a, s') -> x = Ok a /\ s' = s.
Proof.
  unfold lift. destruct x; [|discriminate]. intros H.
  injection H as <- <-. now split.
Qed.

Lemma ret_inv {A} (a b : A) (s s' : RandomState) :
  ret a s = Ok (b, s') -> b = a /\ s' = s.
Proof. unfold ret. intros H. injection H as <- <-. now split. Qed.

Lemma for_each_inv {A B} (l : list A) (body : A -> M (list B))
    (P : A -> list B -> Prop) :
  (forall x s rs s', In x l -> body x s = Ok (rs, s') -> P x rs) ->
  forall s rows s',
    for_each l body s = Ok (rows, s') ->
    exists rss, rows = concat rss /\ Forall2 P l rss.
Proof.
  induction l as [|x l IH]; intros Hb s rows s' H.
  - apply ret_inv in H as [-> _]. exists []. split; constructor.
  - cbn [for_each] in H.
    apply bind_inv in H as (rs & s1 & H1 & H).
    apply bind_inv in H as (rest & s2 & H2 & H).
    apply ret_inv in H as [-> _].
    destruct (IH (fun y s rs s' Hy => Hb y s rs s' (or_intror Hy)) _ _ _ H2)
      as (rss & -> & HF).
    exists (rs :: rss). split; [reflexivity|].
    constructor; [|exact HF]. eapply Hb; [now left | exact H1].
Qed.

Lemma for_each_total {A B} (l : list A) (body : A -> M (list B)) :
  (forall x s, In x l -> exists rs s', body x s = Ok (rs, s')) ->
  forall s, exists rows s', for_each l body s = Ok (rows, s').
Proof.
  induction l as [|x l IH]; intros Hb s.
  - now exists [], s.
  - destruct (Hb x s (or_introl eq_refl)) as (rs & s1 & H1).
    destruct (IH (fun y s Hy => Hb y s (or_intror Hy)) s1) as (rest & s2 & H2).
    exists (rs ++ rest), s2. cbn [for_each]. unfold bind.
    now rewrite H1, H2.
Qed.

Lemma concat_Forall {B} (P : B -> Prop) (rss : list (list B)) :
  Forall (Forall P) rss -> Forall P (concat rss).
Proof.
  induction 1 as [|rs rss H _ IH]; cbn; [constructor|].
  apply Forall_app. now split.
Qed.

Lemma Forall2_flat_map {A B C} (g : B -> C) (h : A -> list C)
    (l : list A) (rss : list (list B)) :
  Forall2 (fun x rs => map g rs = h x) l rss ->
  map g (concat rss) = flat_map h l.
Proof.
  induction 1 as [|x rs l rss H _ IH]; cbn; [reflexivity|].
  now rewrite map_app, H, IH.
Qed.

Lemma Forall2_right {A B} (P : B -> Prop) (l : list A) (rss : list B) :
  Forall2 (fun _ rs => P rs) l rss -> Forall P rss.
Proof. induction 1; constructor; assumption. Qed.

(** One pass of the innermost body either skips the cell or appends one
    row whose columns are tied together as in [row_ok]. *)
Lemma scenario_inv (c : Instellingen) (t : Z) (r : Q) (E : Z)
    (s s' : RandomState) (rows : list Scenario) :
  scenario c t r E s = Ok (rows, s') ->
  ((woningprijs c < E)%Z /\ rows = []) \/
  ((E <= woningprijs c)%Z /\
   exists row, rows = [row] /\ cell_of row = (t, r, E) /\ row_ok c row).
Proof.
  unfold scenario. cbv zeta.
  destruct (Z.ltb_spec (woningprijs c - E) 0) as [HL|HL].
  - intros H. apply ret_inv in H as [-> _]. left. split; [lia | reflexivity].
  - intros H. right. split; [lia|].
    apply bind_inv in H as (maand & s1 & H1 & H).
    apply lift_inv in H1 as [Hm ->].
    apply bind_inv in H as (eind & s2 & _ & H).
    apply bind_inv in H as (gem & s3 & _ & H).
    apply bind_inv in H as (worst & s4 & _ & H).
    apply ret_inv in H as [-> _].
    eexists. split; [reflexivity|]. split; [reflexivity|].
    constructor; cbn; try reflexivity; assumption.
Qed.

Lemma for_each_collect {A B C} (g : B -> C) (h : A -> list C) (P : B -> Prop)
    (l : list A) (body : A -> M (list B)) :
  (forall x s rs s', In x l -> body x s = Ok (rs, s') ->
     map g rs = h x /\ Forall P rs) ->
  forall s rows s',
    for_each l body s = Ok (rows, s') ->
    map g rows = flat_map h l /\ Forall P rows.
Proof.
  intros Hb s rows s' H.
  destruct (for_each_inv l body _ Hb s rows s' H) as (rss & -> & HF).
  split.
  - apply Forall2_flat_map.
    eapply Forall2_impl; [|exact HF]. now intros x rs [E _].
  - apply concat_Forall. apply (Forall2_right _ l).
    eapply Forall2_impl; [|exact HF]. now intros x rs [_ E].
Qed.

Lemma flat_map_filter {A B} (f : A -> bool) (g : A -> B) (l : list A) :
  flat_map (fun x => if f x then [g x] else []) l = map g (filter f l).
Proof.
  induction l as [|x l IH]; cbn; [reflexivity|].
  destruct (f x); cbn; now rewrite IH.
Qed.

(** The rows of the table are the cells of [plan], in that order, and every
    row satisfies [row_ok]. *)
Lemma results_plan (c : Instellingen) (s s' : RandomState) (rows : list Scenario) :
  results c s = Ok (rows, s') ->
  map cell_of rows = plan c /\ Forall (row_ok c) rows.
Proof.
  unfold results, plan. apply for_each_collect.
  intros t s1 rs1 s1' _. apply for_each_collect.
  intros r s2 rs2 s2' _ H.
  unfold down_payments. rewrite <- flat_map_filter.
  revert H. apply for_each_collect.
  intros E s3 rs3 s3' _ H.
  apply scenario_inv in H as [[HE ->]|[HE (row & -> & Hc & Hok)]].
  - destruct (Z.leb_spec E (woningprijs c)); [lia|]. now split.
  - destruct (Z.leb_spec E (woningprijs c)); [|lia]. cbn. rewrite Hc.
    split; [reflexivity|]. constructor; [exact Hok | constructor].
Qed.

Lemma mean_total (l : list Q) : l <> [] -> exists m, Np.mean l = Ok m.
Proof. destruct l; [congruence|]. intros _. eexists; reflexivity. Qed.

Lemma percentile_5_total (l : list Q) :
  l <> [] -> exists p, Np.percentile l 5 = Ok p.
Proof. destruct l; [congruence|]. intros _. eexists; reflexivity. Qed.

Lemma percent_nonneg (r : Q) : 0 <= r -> 0 <= r / 100.
Proof. intros H. apply Qle_shift_div_l; [reflexivity | lra]. Qed.

Lemma scenario_total (c : Instellingen) (t : Z) (r : Q) (E : Z) (s : RandomState) :
  (0 < t)%Z -> 0 <= r -> 0 <= etf_volatiliteit c -> (0 < simulaties c)%Z ->
  exists rows s', scenario c t r E s = Ok (rows, s').
Proof.
  intros Ht Hr Hv Hn. unfold scenario. cbv zeta.
  destruct (woningprijs c - E <? 0)%Z; [now exists [], s|].
  pose proof (percent_nonneg r Hr) as Hr'.
  unfold bind at 1. unfold lift at 1.
  rewrite (maandlast_valid _ _ _ Hr' Ht).
  unfold bind at 1.
  rewrite (monte_carlo_run _ _ _ _ _ s Hv Ht (Z.lt_le_incl _ _ Hn)).
  set (vals := map _ (seq 0 (Z.to_nat (simulaties c)))).
  assert (Hne : vals <> []).
  { intros E0. apply (f_equal (@length Q)) in E0. subst vals.
    rewrite length_map, length_seq in E0. cbn in E0. lia. }
  destruct (mean_total vals Hne) as [m Hm].
  destruct (percentile_5_total vals Hne) as [p Hp].
  unfold bind, lift. rewrite Hm, Hp. unfold ret. now do 2 eexists.
Qed.

(** On valid inputs the three loops run to completion. *)
Lemma results_total (c : Instellingen) (s : RandomState) :
  valid c -> exists rows s', results c s = Ok (rows, s').
Proof.
  intros [Ht Hr Hv Hn]. unfold results.
  apply for_each_total. intros t s1 Hin1.
  apply for_each_total. intros r s2 Hin2.
  apply for_each_total. intros E s3 _.
  rewrite Forall_forall in Ht, Hr.
  apply scenario_total; auto.
Qed.

(** ** The grid of down payments *)

Lemma arange_In (stop E : Z) :
  In E (Np.arange 0 stop 1000) <->
  (0 <= E < stop)%Z /\ (E mod 1000 = 0)%Z.
Proof.
  unfold Np.arange. rewrite in_map_iff.
  replace (stop - 0 + 1000 - 1)%Z with (stop + 999)%Z by lia.
  split.
  - intros (k & <- & Hk). apply in_seq in Hk. cbn [Z.add].
    split; [|apply Z.mod_mul; lia].
    pose proof (Z.div_mod (stop + 999) 1000 ltac:(lia)) as Hd.
    pose proof (Z.mod_pos_bound (stop + 999) 1000 ltac:(lia)) as Hb.
    lia.
  - intros [HE Hm]. exists (Z.to_nat (E / 1000)).
    pose proof (Z.div_mod E 1000 ltac:(lia)) as Hd. rewrite Hm in Hd.
    pose proof (Z.div_mod (stop + 999) 1000 ltac:(lia)) as Hd'.
    pose proof (Z.mod_pos_bound (stop + 999) 1000 ltac:(lia)) as Hb.
    split; [lia|]. apply in_seq. lia.
Qed.

Lemma inbreng_values_In (c : Instellingen) (E : Z) :
  In E (inbreng_values c) <->
  (0 <= E <= totale_spaarpot c)%Z /\ (E mod 1000 = 0)%Z.
Proof. unfold inbreng_values. rewrite arange_In. lia. Qed.

Lemma plan_In (c : Instellingen) (t : Z) (r : Q) (E : Z) :
  In (t, r, E) (plan c) <->
  In t (looptijden c) /\ In r (rentes c) /\
  In E (inbreng_values c) /\ (E <= woningprijs c)%Z.
Proof.
  unfold plan, down_payments. rewrite in_flat_map. split.
  - intros (t' & Ht & H). apply in_flat_map in H as (r' & Hr & H).
    apply in_map_iff in H as (E' & [= <- <- <-] & HE).
    apply filter_In in HE as [HE Hle]. repeat split; try assumption. lia.
  - intros (Ht & Hr & HE & Hle). exists t. split; [exact Ht|].
    apply in_flat_map. exists r. split; [exact Hr|].
    apply in_map. apply filter_In. split; [exact HE | lia].
Qed.

Lemma voorbeeld_valid : valid voorbeeld.
Proof.
  constructor; cbn.
  - repeat constructor.
  - constructor; [discriminate | constructor].
  - discriminate.
  - reflexivity.
Qed.

(** ** The grid claims *)

(** C2, against the claim as stated: with savings of 1500 the grid of down
    payments is 0, 1000; the upper end 1500 is not on it, although it does
    not exceed the price of 2000. *)
Lemma savings_off_grid :
  ~ In (totale_spaarpot voorbeeld) (inbreng_values voorbeeld) /\
  (totale_spaarpot voorbeeld <= woningprijs voorbeeld)%Z /\
  exists rows s',
    results voorbeeld teller = Ok (rows, s') /\
    map s_inbreng rows = [0; 1000]%Z.
Proof.
  split; [|split].
  - vm_compute. intuition discriminate.
  - vm_compute. discriminate.
  - do 2 eexists. split; [vm_compute; reflexivity | reflexivity].
Qed.

(** C2, amended.  The down payments of the grid are the multiples of 1000
    between 0 and the savings, so the savings themselves are on the grid
    exactly when they are a multiple of 1000.  The table holds one row for
    each requested term, each requested rate and each such down payment that
    does not exceed the price, in loop order; no row has a negative loan;
    the cells with a down payment above the price are skipped without an
    error, and on valid inputs the loops complete. *)
Theorem grid_enumeration (c : Instellingen) (s : RandomState) :
  (forall E, In E (inbreng_values c) <->
     (0 <= E <= totale_spaarpot c)%Z /\ (E mod 1000 = 0)%Z) /\
  (forall t r E, In (t, r, E) (plan c) <->
     In t (looptijden c) /\ In r (rentes c) /\
     In E (inbreng_values c) /\ (E <= woningprijs c)%Z) /\
  (forall rows s', results c s = Ok (rows, s') ->
     map cell_of rows = plan c /\
     Forall (fun r => (0 <= s_lening r)%Z /\
                      s_lening r = (woningprijs c - s_inbreng r)%Z) rows) /\
  (valid c -> exists rows s', results c s = Ok (rows, s')).
Proof.
  split; [apply inbreng_values_In|]. split; [apply plan_In|]. split.
  - intros rows s' H. apply results_plan in H as [Hp Hok].
    split; [exact Hp|]. eapply Forall_impl; [|exact Hok].
    intros r [H1 H2 _ _ _ _]. now split.
  - intros Hv. now apply results_total.
Qed.

Lemma grid_enumeration_witness :
  exists rows s',
    results voorbeeld teller = Ok (rows, s') /\
    map cell_of rows = plan voorbeeld /\
    Forall (fun r => (0 <= s_lening r)%Z /\
                     s_lening r = (woningprijs voorbeeld - s_inbreng r)%Z) rows.
Proof.
  destruct (grid_enumeration voorbeeld teller) as (_ & _ & Hrows & Htotal).
  destruct (Htotal voorbeeld_valid) as (rows & s' & Hrun).
  exists rows, s'. split; [exact Hrun | exact (Hrows rows s' Hrun)].
Defined.

Lemma Qeq_bool_comp (a b c : Q) : a == b -> Qeq_bool a c = Qeq_bool b c.
Proof.
  intros H. destruct (Qeq_bool b c) eqn:E.
  - apply Qeq_bool_iff. apply Qeq_bool_iff in E. now rewrite H.
  - apply Qeq_bool_neq_false. apply Qeq_bool_false_neq in E. now rewrite H.
Qed.

Lemma annuity_factor_comp (a b : Q) (N : Z) :
  a == b -> annuity_factor a N == annuity_factor b N.
Proof.
  intros H. unfold annuity_factor.
  assert (E : a / 12 == b / 12) by now rewrite H.
  rewrite (Qeq_bool_comp _ _ 0 E).
  destruct (Qeq_bool (b / 12) 0); [reflexivity|]. now rewrite E.
Qed.

(** The payment of a row is its loan times the factor of its rate and term. *)
Lemma row_payment (c : Instellingen) (r : Scenario) :
  row_ok c r -> (0 < s_looptijd r)%Z -> 0 <= s_rente r ->
  s_maandlast r ==
    inject_Z (s_lening r) * annuity_factor (s_rente r / 100) (s_looptijd r).
Proof.
  intros Hok Ht Hr.
  destruct (maandlast_linear (inject_Z (s_lening r)) (s_rente r / 100)
              (s_looptijd r) (percent_nonneg _ Hr) Ht) as (m & Hm & Em).
  rewrite (ok_maandlast Hok) in Hm. injection Hm as ->. exact Em.
Qed.

(** C7.  Take two rows of one table with the same term and rate, a term
    [> 0] and a rate [>= 0], and down payments [d1 < d2].  The loan of the
    second is strictly smaller; its monthly payment and its total repaid are
    not larger, and they are strictly smaller when the loan of the first is
    positive, which on the grid it always is. *)
Theorem payment_monotone (c : Instellingen) (s s' : RandomState)
    (rows : list Scenario) (r1 r2 : Scenario) :
  results c s = Ok (rows, s') -> In r1 rows -> In r2 rows ->
  (0 < s_looptijd r1)%Z -> 0 <= s_rente r1 ->
  s_looptijd r1 = s_looptijd r2 -> s_rente r1 == s_rente r2 ->
  (s_inbreng r1 < s_inbreng r2)%Z ->
  (s_lening r2 < s_lening r1)%Z /\
  (0 < s_lening r1)%Z /\
  (s_maandlast r2 <= s_maandlast r1 /\
   s_totale_afbetaling r2 <= s_totale_afbetaling r1) /\
  ((0 < s_lening r1)%Z ->
   s_maandlast r2 < s_maandlast r1 /\
   s_totale_afbetaling r2 < s_totale_afbetaling r1).
Proof.
  intros Hrun H1 H2 Ht Hr Et Er Hd.
  apply results_plan in Hrun as [_ Hok]. rewrite Forall_forall in Hok.
  pose proof (Hok r1 H1) as Hok1. pose proof (Hok r2 H2) as Hok2.
  assert (HL : (s_lening r2 < s_lening r1)%Z).
  { rewrite (ok_lening Hok1), (ok_lening Hok2). lia. }
  assert (HL0 : (0 < s_lening r1)%Z).
  { pose proof (ok_lening_nonneg Hok2). lia. }
  assert (Ht2 : (0 < s_looptijd r2)%Z) by (rewrite <- Et; exact Ht).
  assert (Hr2 : 0 <= s_rente r2) by (rewrite <- Er; exact Hr).
  pose proof (row_payment c r1 Hok1 Ht Hr) as P1.
  pose proof (row_payment c r2 Hok2 Ht2 Hr2) as P2.
  rewrite <- Et in P2.
  rewrite <- (annuity_factor_comp _ _ (s_looptijd r1)
                (Qmult_comp _ _ Er _ _ (Qeq_refl (/ 100)))) in P2.
  pose proof (annuity_factor_pos (s_rente r1 / 100) (s_looptijd r1)
                (percent_nonneg _ Hr) Ht) as Hf.
  set (f := annuity_factor (s_rente r1 / 100) (s_looptijd r1)) in *.
  assert (HQ : inject_Z (s_lening r2) < inject_Z (s_lening r1))
    by now rewrite <- Zlt_Qlt.
  assert (Hm : s_maandlast r2 < s_maandlast r1).
  { rewrite P1, P2. apply Qmult_lt_compat_r; assumption. }
  assert (Hn : 0 < inject_Z (s_looptijd r1) * 12).
  { pose proof (inject_Z_pos _ Ht). apply Qmult_lt_0_compat; lra. }
  assert (Htot : s_totale_afbetaling r2 < s_totale_afbetaling r1).
  { rewrite (ok_totale_afbetaling Hok1), (ok_totale_afbetaling Hok2).
    rewrite <- Et, <- !Qmult_assoc.
    apply Qmult_lt_compat_r; assumption. }
  repeat split; try assumption; apply Qlt_le_weak; assumption.
Qed.

Lemma payment_monotone_witness :
  exists rows s' r1 r2,
    results voorbeeld teller = Ok (rows, s') /\
    nth_error rows 0 = Some r1 /\ nth_error rows 1 = Some r2 /\
    (s_lening r2 < s_lening r1)%Z /\
    (0 < s_lening r1)%Z /\
    (s_maandlast r2 <= s_maandlast r1 /\
     s_totale_afbetaling r2 <= s_totale_afbetaling r1) /\
    ((0 < s_lening r1)%Z ->
     s_maandlast r2 < s_maandlast r1 /\
     s_totale_afbetaling r2 < s_totale_afbetaling r1).
Proof.
  do 4 eexists.
  split; [vm_compute; reflexivity|].
  split; [reflexivity|]. split; [reflexivity|].
  eapply (payment_monotone voorbeeld teller).
  - vm_compute; reflexivity.
  - left; reflexivity.
  - right; left; reflexivity.
  - reflexivity.
  - vm_compute; discriminate.
  - reflexivity.
  - reflexivity.
  - reflexivity.
Defined.

(** ** Data frames *)

Lemma key_eqb_true (k1 k2 : Pd.key) :
  Pd.key_eqb k1 k2 = true <-> fst k1 = fst k2 /\ snd k1 == snd k2.
Proof.
  unfold Pd.key_eqb. rewrite andb_true_iff, Z.eqb_eq, Qeq_bool_iff. tauto.
Qed.

Lemma key_eqb_refl (k : Pd.key) : Pd.key_eqb k k = true.
Proof. apply key_eqb_true. split; reflexivity. Qed.

Lemma unique_keys_In (seen l : list Pd.key) (k : Pd.key) :
  In k (Pd.unique_keys seen l) -> In k l.
Proof.
  revert seen. induction l as [|k0 l IH]; intros seen; cbn; [tauto|].
  destruct (existsb (Pd.key_eqb k0) seen).
  - intros H. right. eapply IH, H.
  - intros [->|H]; [now left | right; eapply IH, H].
Qed.

Lemma unique_keys_cover (seen l : list Pd.key) (k : Pd.key) :
  In k l ->
  exists k', In k' (seen ++ Pd.unique_keys seen l) /\ Pd.key_eqb k k' = true.
Proof.
  revert seen. induction l as [|k0 l IH]; intros seen; cbn; [tauto|].
  destruct (existsb (Pd.key_eqb k0) seen) eqn:Ex.
  - intros [<-|H]; [|now apply IH].
    apply existsb_exists in Ex as (k' & Hin & E).
    exists k'. split; [apply in_or_app; now left | exact E].
  - intros [<-|H].
    + exists k0. split; [apply in_or_app; right; now left | apply key_eqb_refl].
    + destruct (IH (k0 :: seen) H) as (k' & Hin & E).
      exists k'. split; [|exact E].
      apply in_app_or in Hin as [[->|Hin]|Hin]; apply in_or_app.
      * right; now left.
      * now left.
      * right; now right.
Qed.

Lemma insert_key_In (x k : Pd.key) (l : list Pd.key) :
  In k (Pd.insert_key x l) <-> k = x \/ In k l.
Proof.
  induction l as [|y l IH]; cbn; [intuition|].
  destruct (Pd.key_leb x y); cbn; [intuition|]. rewrite IH. intuition.
Qed.

Lemma sort_keys_In (k : Pd.key) (l : list Pd.key) :
  In k (Pd.sort_keys l) <-> In k l.
Proof.
  induction l as [|y l IH]; cbn; [tauto|].
  rewrite insert_key_In, IH. intuition.
Qed.

Lemma of_rows_from (a : nat) (rows : list Scenario) :
  map fst (combine (seq a (length rows)) rows) = seq a (length rows) /\
  map snd (combine (seq a (length rows)) rows) = rows.
Proof.
  revert a. induction rows as [|r rows IH]; intros a; cbn; [now split|].
  destruct (IH (S a)) as [-> ->]. now split.
Qed.

Lemma of_rows_labels (rows : list Scenario) :
  NoDup (map fst (Pd.of_rows rows)).
Proof.
  unfold Pd.of_rows. rewrite (proj1 (of_rows_from 0 rows)). apply seq_NoDup.
Qed.

Lemma of_rows_rows (rows : list Scenario) : map snd (Pd.of_rows rows) = rows.
Proof. apply of_rows_from. Qed.

Lemma filter_split {A} (f : A -> bool) (l pre post : list A) (x : A) :
  filter f l = pre ++ x :: post ->
  exists lpre lpost,
    l = lpre ++ x :: lpost /\ f x = true /\
    filter f lpre = pre /\ filter f lpost = post.
Proof.
  revert pre. induction l as [|y l IH]; intros pre H; cbn in H.
  - now destruct pre.
  - destruct (f y) eqn:Ey.
    + destruct pre as [|p pre]; cbn in H; injection H as -> H.
      * exists [], l. now repeat split.
      * destruct (IH pre H) as (lpre & lpost & -> & Hx & <- & <-).
        exists (p :: lpre), lpost. cbn. rewrite Ey. now repeat split.
    + destruct (IH pre H) as (lpre & lpost & -> & Hx & <- & <-).
      exists (y :: lpre), lpost. cbn. rewrite Ey. now repeat split.
Qed.

Lemma Qlt_bool_true (x y : Q) : Qlt_bool x y = true <-> x < y.
Proof.
  unfold Qlt_bool. rewrite negb_true_iff. split.
  - intros H. apply Qnot_le_lt. intros Hle.
    apply Qle_bool_iff in Hle. congruence.
  - intros H. destruct (Qle_bool y x) eqn:E; [|reflexivity].
    apply Qle_bool_iff in E. exfalso. eapply Qlt_not_le; eassumption.
Qed.

Lemma Qlt_bool_false (x y : Q) : Qlt_bool x y = false <-> y <= x.
Proof.
  unfold Qlt_bool. rewrite negb_false_iff. apply Qle_bool_iff.
Qed.

(** [idxmin_from] keeps the first row on which the column is minimal:
    everything before it is strictly larger, everything after it is at least
    as large. *)
Lemma idxmin_from_spec (col : Scenario -> Q) (t : Pd.DataFrame) :
  forall (pre mid : Pd.DataFrame) (best : nat * Scenario),
    (forall x, In x pre -> col (snd best) < col (snd x)) ->
    (forall x, In x mid -> col (snd best) <= col (snd x)) ->
    exists pre' ir post,
      pre ++ best :: mid ++ t = pre' ++ ir :: post /\
      Pd.idxmin_from col best t = fst ir /\
      (forall x, In x pre' -> col (snd ir) < col (snd x)) /\
      (forall x, In x post -> col (snd ir) <= col (snd x)).
Proof.
  induction t as [|y t IH]; intros pre mid best Hpre Hmid.
  - exists pre, best, mid. rewrite app_nil_r. now repeat split.
  - cbn [Pd.idxmin_from].
    destruct (Qlt_bool (col (snd y)) (col (snd best))) eqn:E.
    + apply Qlt_bool_true in E.
      destruct (IH (pre ++ best :: mid) [] y) as (pre' & ir & post & H).
      * intros x Hx. apply in_app_or in Hx as [Hx|[<-|Hx]].
        -- eapply Qlt_trans; [exact E | now apply Hpre].
        -- exact E.
        -- eapply Qlt_le_trans; [exact E | now apply Hmid].
      * intros x [].
      * exists pre', ir, post. cbn [app] in H.
        rewrite <- app_assoc in H. exact H.
    + apply Qlt_bool_false in E.
      destruct (IH pre (mid ++ [y]) best Hpre) as (pre' & ir & post & H).
      * intros x Hx. apply in_app_or in Hx as [Hx|[<-|[]]];
          [now apply Hmid | exact E].
      * exists pre', ir, post. rewrite <- app_assoc in H. exact H.
Qed.

Lemma loc_first (g pre post : Pd.DataFrame) (ir : nat * Scenario) :
  g = pre ++ ir :: post -> ~ In (fst ir) (map fst pre) ->
  Pd.loc g (fst ir) = Ok (snd ir).
Proof.
  intros -> Hn. induction pre as [|p pre IH]; cbn.
  - now rewrite Nat.eqb_refl.
  - destruct (Nat.eqb_spec (fst p) (fst ir)) as [E|E].
    + exfalso. apply Hn. now left.
    + apply IH. intros H. apply Hn. now right.
Qed.

Lemma group_select (col : Scenario -> Q) (df : Pd.DataFrame) (k : Pd.key) :
  NoDup (map fst df) ->
  filter (fun ir => Pd.key_eqb (Pd.key_of (snd ir)) k) df <> [] ->
  exists dpre ir dpost,
    df = dpre ++ ir :: dpost /\
    Pd.key_eqb (Pd.key_of (snd ir)) k = true /\
    rbind (Pd.idxmin col (filter (fun ir => Pd.key_eqb (Pd.key_of (snd ir)) k) df))
          (Pd.loc (filter (fun ir => Pd.key_eqb (Pd.key_of (snd ir)) k) df)) =
      Ok (snd ir) /\
    (forall x, In x dpre -> Pd.key_eqb (Pd.key_of (snd x)) k = true ->
       col (snd ir) < col (snd x)) /\
    (forall x, In x dpost -> Pd.key_eqb (Pd.key_of (snd x)) k = true ->
       col (snd ir) <= col (snd x)).
Proof.
  intros Hnd Hne.
  set (f := fun ir : nat * Scenario => Pd.key_eqb (Pd.key_of (snd ir)) k) in *.
  destruct (filter f df) as [|b t] eqn:Eg; [congruence|]. clear Hne.
  destruct (idxmin_from_spec col t [] [] b) as (pre & ir & post & Hg & Hi & Hlt & Hle).
  { intros x []. }
  { intros x []. }
  cbn [app] in Hg. rewrite Hg in Eg.
  destruct (filter_split f df pre post ir Eg) as (dpre & dpost & -> & Hf & <- & <-).
  exists dpre, ir, dpost. repeat split.
  - exact Hf.
  - cbn [Pd.idxmin rbind]. rewrite Hi, Hg.
    apply (loc_first _ (filter f dpre) (filter f dpost)); [reflexivity|].
    rewrite map_app in Hnd. cbn [map] in Hnd.
    apply NoDup_remove_2 in Hnd. intros Hin. apply Hnd.
    apply in_or_app. left.
    apply in_map_iff in Hin as (x & Ex & Hx). apply filter_In in Hx as [Hx _].
    apply in_map_iff. now exists x.
  - intros x Hx Hk. apply Hlt. apply filter_In. now split.
  - intros x Hx Hk. apply Hle. apply filter_In. now split.
Qed.

Lemma for_each_result_spec {A B} (P : A -> B -> Prop) (l : list A)
    (body : A -> result B) :
  (forall x, In x l -> exists y, body x = Ok y /\ P x y) ->
  exists ys, for_each_result l body = Ok ys /\ Forall2 P l ys.
Proof.
  induction l as [|x l IH]; intros Hb.
  - exists []. split; [reflexivity | constructor].
  - destruct (Hb x (or_introl eq_refl)) as (y & Hy & Py).
    destruct (IH (fun z Hz => Hb z (or_intror Hz))) as (ys & Hys & HF).
    exists (y :: ys). cbn [for_each_result]. rewrite Hy, Hys.
    split; [reflexivity | now constructor].
Qed.

Lemma Forall2_In_r {A B} (P : A -> B -> Prop) (l : list A) (ys : list B) (y : B) :
  Forall2 P l ys -> In y ys -> exists x, In x l /\ P x y.
Proof.
  induction 1 as [|x y' l ys H _ IH]; intros Hin; [destruct Hin|].
  destruct Hin as [<-|Hin].
  - exists x. split; [now left | exact H].
  - destruct (IH Hin) as (x' & Hx & Px). exists x'. split; [now right | exact Px].
Qed.

Lemma Forall2_In_l {A B} (P : A -> B -> Prop) (l : list A) (ys : list B) (x : A) :
  Forall2 P l ys -> In x l -> exists y, In y ys /\ P x y.
Proof.
  induction 1 as [|x' y l ys H _ IH]; intros Hin; [destruct Hin|].
  destruct Hin as [<-|Hin].
  - exists y. split; [now left | exact H].
  - destruct (IH Hin) as (y' & Hy & Py). exists y'. split; [now right | exact Py].
Qed.

(** The decomposition of the frame around the chosen row, read on the rows. *)
Lemma select_rows (col : Scenario -> Q) (rows : list Scenario)
    (o : Optimalisatie) (k : Pd.key) :
  o_looptijd o = fst k -> o_rente o = snd k ->
  filter (fun ir => Pd.key_eqb (Pd.key_of (snd ir)) k) (Pd.of_rows rows) <> [] ->
  exists row,
    rbind (Pd.idxmin col
             (filter (fun ir => Pd.key_eqb (Pd.key_of (snd ir)) k) (Pd.of_rows rows)))
          (Pd.loc
             (filter (fun ir => Pd.key_eqb (Pd.key_of (snd ir)) k) (Pd.of_rows rows)))
      = Ok row /\
    selected col rows o (col row) (s_inbreng row).
Proof.
  intros Eo1 Eo2 Hne.
  destruct (group_select col (Pd.of_rows rows) k (of_rows_labels rows) Hne)
    as (dpre & ir & dpost & Hdf & Hk & Hsel & Hlt & Hle).
  exists (snd ir). split; [exact Hsel|].
  assert (Hgrp : forall x, same_group x o <-> Pd.key_eqb (Pd.key_of x) k = true).
  { intros x. unfold same_group. rewrite key_eqb_true, Eo1, Eo2. reflexivity. }
  exists (map snd dpre), (snd ir), (map snd dpost). repeat split.
  - rewrite <- (of_rows_rows rows), Hdf, map_app. reflexivity.
  - apply Hgrp in Hk. apply Hk.
  - apply Hgrp in Hk. apply Hk.
  - intros x Hx Hg. apply in_map_iff in Hx as (ix & <- & Hix).
    apply Hlt; [exact Hix | now apply Hgrp].
  - intros x Hx Hg. apply in_map_iff in Hx as (ix & <- & Hix).
    apply Hle; [exact Hix | now apply Hgrp].
Qed.

Lemma rbind_assoc {A B C} (x : result A) (f : A -> result B) (k : B -> result C) :
  rbind x (fun a => rbind (f a) k) = rbind (rbind x f) k.
Proof. now destruct x. Qed.

Lemma groupby_ok (df : Pd.DataFrame) :
  df <> [] ->
  Pd.groupby df =
  Ok (map (fun k => (k, filter (fun ir => Pd.key_eqb (Pd.key_of (snd ir)) k) df))
          (Pd.sort_keys (Pd.unique_keys [] (map (fun ir => Pd.key_of (snd ir)) df)))).
Proof. destruct df; [congruence | reflexivity]. Qed.

Lemma of_rows_nonempty (rows : list Scenario) : rows <> [] -> Pd.of_rows rows <> [].
Proof. destruct rows; [congruence | discriminate]. Qed.

(** What the summary holds: one line for the group of every row, and on
    each line, for both cost columns, the value and the down payment of the
    first minimal row of that group. *)
Lemma optimalisaties_spec (rows : list Scenario) :
  rows <> [] ->
  exists opts,
    optimalisaties rows = Ok opts /\
    (forall r, In r rows -> exists o, In o opts /\ same_group r o) /\
    (forall o, In o opts ->
       selected s_netto_kost_mean rows o
         (o_min_netto_kost_mean o) (o_inbreng_min_kost_mean o) /\
       selected s_netto_kost_worst rows o
         (o_min_netto_kost_worst o) (o_inbreng_min_kost_worst o)).
Proof.
  intros Hne. unfold optimalisaties.
  rewrite (groupby_ok _ (of_rows_nonempty rows Hne)). cbn [rbind].
  set (df := Pd.of_rows rows).
  set (keys := Pd.sort_keys (Pd.unique_keys [] (map (fun ir => Pd.key_of (snd ir)) df))).
  match goal with |- exists opts, for_each_result ?l ?b = _ /\ _ =>
    destruct (for_each_result_spec
      (fun (kg : Pd.key * Pd.DataFrame) (o : Optimalisatie) =>
         (o_looptijd o = fst (fst kg) /\ o_rente o = snd (fst kg)) /\
         selected s_netto_kost_mean rows o
           (o_min_netto_kost_mean o) (o_inbreng_min_kost_mean o) /\
         selected s_netto_kost_worst rows o
           (o_min_netto_kost_worst o) (o_inbreng_min_kost_worst o)) l b)
      as (opts & Hrun & HF)
  end.
  - intros kg Hkg. apply in_map_iff in Hkg as (k & <- & Hk).
    destruct k as [looptijd rente].
    assert (Hg : filter (fun ir => Pd.key_eqb (Pd.key_of (snd ir)) (looptijd, rente)) df
                 <> []).
    { apply sort_keys_In, unique_keys_In, in_map_iff in Hk as (ir & Ek & Hir).
      intros E. assert (Hin : In ir []); [|destruct Hin].
      rewrite <- E. apply filter_In. split; [exact Hir|].
      rewrite Ek. apply key_eqb_refl. }
    set (o0 := {| o_looptijd := looptijd; o_rente := rente;
                  o_min_netto_kost_mean := 0; o_inbreng_min_kost_mean := 0;
                  o_min_netto_kost_worst := 0; o_inbreng_min_kost_worst := 0 |}).
    destruct (select_rows s_netto_kost_mean rows o0 (looptijd, rente)
                eq_refl eq_refl Hg) as (rm & Hm & Sm).
    destruct (select_rows s_netto_kost_worst rows o0 (looptijd, rente)
                eq_refl eq_refl Hg) as (rw & Hw & Sw).
    fold df in Hm, Hw.
    rewrite rbind_assoc, Hm. cbn [rbind].
    rewrite rbind_assoc, Hw. cbn [rbind].
    eexists. split; [reflexivity|]. cbn. split; [now split|].
    split; [exact Sm | exact Sw].
  - exists opts. split; [exact Hrun|]. split.
    + intros r Hr.
      assert (Hk : In (Pd.key_of r) (map (fun ir => Pd.key_of (snd ir)) df)).
      { rewrite <- (of_rows_rows rows) in Hr. fold df in Hr.
        apply in_map_iff in Hr as (ir & <- & Hir).
        apply in_map_iff. now exists ir. }
      apply (unique_keys_cover []) in Hk as (k & Hk & Ek). cbn [app] in Hk.
      apply sort_keys_In in Hk. fold keys in Hk.
      destruct (Forall2_In_l _ _ _
                  (k, filter (fun ir => Pd.key_eqb (Pd.key_of (snd ir)) k) df) HF)
        as (o & Ho & [[E1 E2] _]).
      { apply in_map_iff. now exists k. }
      exists o. split; [exact Ho|]. unfold same_group.
      apply key_eqb_true in Ek. cbn in E1, E2, Ek. rewrite E1, E2. exact Ek.
    + intros o Ho. destruct (Forall2_In_r _ _ _ o HF Ho) as (kg & _ & _ & H).
      exact H.
Qed.

(** ** Consequences of [selected] *)

Lemma selected_lower_bound (col : Scenario -> Q) (rows : list Scenario)
    (o : Optimalisatie) (v : Q) (d : Z) :
  selected col rows o v d ->
  forall r, In r rows -> same_group r o -> v <= col r.
Proof.
  intros (pre & r0 & post & -> & _ & <- & _ & Hlt & Hle) r Hr Hg.
  apply in_app_or in Hr as [Hr|[<-|Hr]].
  - apply Qlt_le_weak. now apply Hlt.
  - apply Qle_refl.
  - now apply Hle.
Qed.

Lemma selected_attained (col : Scenario -> Q) (rows : list Scenario)
    (o : Optimalisatie) (v : Q) (d : Z) :
  selected col rows o v d ->
  exists r, In r rows /\ same_group r o /\ col r = v /\ s_inbreng r = d.
Proof.
  intros (pre & r0 & post & -> & Hg & Hv & Hd & _).
  exists r0. split; [apply in_or_app; right; now left|].
  split; [exact Hg | split; assumption].
Qed.

(** ** The optimiser claims *)

(** C3.  For a table with at least one row the summary exists and has a
    line for the group of every row.  On each line the minimal mean cost is
    at most the mean cost of every row of the group and is the mean cost of
    one of its rows, whose down payment the line reports; the same holds,
    with a row chosen on its own, for the worst-case cost. *)
Theorem optimiser_minimum (rows : list Scenario) :
  rows <> [] ->
  exists opts,
    optimalisaties rows = Ok opts /\
    (forall r, In r rows -> exists o, In o opts /\ same_group r o) /\
    (forall o, In o opts ->
       (forall r, In r rows -> same_group r o ->
          o_min_netto_kost_mean o <= s_netto_kost_mean r) /\
       (exists r, In r rows /\ same_group r o /\
          s_netto_kost_mean r = o_min_netto_kost_mean o /\
          s_inbreng r = o_inbreng_min_kost_mean o) /\
       (forall r, In r rows -> same_group r o ->
          o_min_netto_kost_worst o <= s_netto_kost_worst r) /\
       (exists r, In r rows /\ same_group r o /\
          s_netto_kost_worst r = o_min_netto_kost_worst o /\
          s_inbreng r = o_inbreng_min_kost_worst o)).
Proof.
  intros Hne.
  destruct (optimalisaties_spec rows Hne) as (opts & Hrun & Hcover & Hsel).
  exists opts. split; [exact Hrun|]. split; [exact Hcover|].
  intros o Ho. destruct (Hsel o Ho) as [Sm Sw].
  split; [exact (selected_lower_bound _ _ _ _ _ Sm)|].
  split; [exact (selected_attained _ _ _ _ _ Sm)|].
  split; [exact (selected_lower_bound _ _ _ _ _ Sw)|].
  exact (selected_attained _ _ _ _ _ Sw).
Qed.

Lemma optimiser_minimum_witness :
  let rows := [voorbeeld_rij 0 120000 95000; voorbeeld_rij 1000 90000 99000] in
  exists opts,
    optimalisaties rows = Ok opts /\
    (forall r, In r rows -> exists o, In o opts /\ same_group r o) /\
    (forall o, In o opts ->
       (forall r, In r rows -> same_group r o ->
          o_min_netto_kost_mean o <= s_netto_kost_mean r) /\
       (exists r, In r rows /\ same_group r o /\
          s_netto_kost_mean r = o_min_netto_kost_mean o /\
          s_inbreng r = o_inbreng_min_kost_mean o) /\
       (forall r, In r rows -> same_group r o ->
          o_min_netto_kost_worst o <= s_netto_kost_worst r) /\
       (exists r, In r rows /\ same_group r o /\
          s_netto_kost_worst r = o_min_netto_kost_worst o /\
          s_inbreng r = o_inbreng_min_kost_worst o)).
Proof.
  intros rows. apply (optimiser_minimum rows). discriminate.
Defined.

(** ** The order of the cells *)

Lemma FOP_app {A} (R : A -> A -> Prop) (l1 l2 : list A) :
  ForallOrdPairs R l1 -> ForallOrdPairs R l2 ->
  (forall x y, In x l1 -> In y l2 -> R x y) ->
  ForallOrdPairs R (l1 ++ l2).
Proof.
  intros H1 H2 H12. induction H1 as [|a l1 Ha _ IH]; [exact H2|].
  cbn. constructor.
  - apply Forall_app. split; [exact Ha|].
    apply Forall_forall. intros y Hy. apply H12; [now left | exact Hy].
  - apply IH. intros x y Hx Hy. apply H12; [now right | exact Hy].
Qed.

Lemma FOP_later {A} (R : A -> A -> Prop) (pre post : list A) (x : A) :
  ForallOrdPairs R (pre ++ x :: post) -> forall y, In y post -> R x y.
Proof.
  induction pre as [|p pre IH]; cbn; intros H y Hy.
  - inversion H as [|a l Ha _]; subst.
    rewrite Forall_forall in Ha. now apply Ha.
  - inversion H; subst. now apply IH.
Qed.

Lemma FOP_filter {A} (R : A -> A -> Prop) (f : A -> bool) (l : list A) :
  ForallOrdPairs R l -> ForallOrdPairs R (filter f l).
Proof.
  induction 1 as [|a l Ha _ IH]; cbn; [constructor|].
  destruct (f a); [|exact IH]. constructor; [|exact IH].
  rewrite Forall_forall in *. intros y Hy. apply Ha.
  now apply filter_In in Hy.
Qed.

Lemma FOP_map {A B} (R : B -> B -> Prop) (g : A -> B) (l : list A) :
  ForallOrdPairs (fun x y => R (g x) (g y)) l -> ForallOrdPairs R (map g l).
Proof.
  induction 1 as [|a l Ha _ IH]; cbn; constructor; [|exact IH].
  rewrite Forall_forall in *. intros y Hy.
  apply in_map_iff in Hy as (x & <- & Hx). now apply Ha.
Qed.

Lemma FOP_flat_map {A B} (R : B -> B -> Prop) (h : A -> list B) (l : list A) :
  (forall x, In x l -> ForallOrdPairs R (h x)) ->
  ForallOrdPairs (fun x x' => forall y y', In y (h x) -> In y' (h x') -> R y y') l ->
  ForallOrdPairs R (flat_map h l).
Proof.
  intros Hin H. induction H as [|a l Ha _ IH]; cbn; [constructor|].
  apply FOP_app.
  - apply Hin. now left.
  - apply IH. intros x Hx. apply Hin. now right.
  - intros y y' Hy Hy'. apply in_flat_map in Hy' as (x' & Hx' & Hy').
    rewrite Forall_forall in Ha. exact (Ha x' Hx' y y' Hy Hy').
Qed.

Lemma FOP_impl {A} (R R' : A -> A -> Prop) (l : list A) :
  (forall x y, R x y -> R' x y) -> ForallOrdPairs R l -> ForallOrdPairs R' l.
Proof.
  intros HR. induction 1 as [|a l Ha _ IH]; constructor; [|exact IH].
  eapply Forall_impl; [|exact Ha]. intros y. apply HR.
Qed.

Lemma seq_ascending (a n : nat) : ForallOrdPairs lt (seq a n).
Proof.
  revert a. induction n as [|n IH]; intros a; cbn; constructor; [|apply IH].
  apply Forall_forall. intros y Hy. apply in_seq in Hy. lia.
Qed.

Lemma arange_ascending (stop : Z) : ForallOrdPairs Z.lt (Np.arange 0 stop 1000).
Proof.
  unfold Np.arange. apply FOP_map.
  eapply FOP_impl; [|apply seq_ascending]. intros x y H. cbn beta. lia.
Qed.

Lemma NoDup_distinct {A} (l : list A) :
  NoDup l -> ForallOrdPairs (fun x y => x <> y) l.
Proof.
  induction 1 as [|a l Ha _ IH]; constructor; [|exact IH].
  apply Forall_forall. intros y Hy ->. contradiction.
Qed.

Lemma NoDupA_distinct (l : list Q) :
  NoDupA Qeq l -> ForallOrdPairs (fun x y => ~ x == y) l.
Proof.
  induction 1 as [|a l Ha _ IH]; constructor; [|exact IH].
  apply Forall_forall. intros y Hy E. apply Ha.
  apply InA_alt. now exists y.
Qed.

(** With every term and every rate requested once, the cells of one term
    and rate appear in [plan] by ascending down payment. *)
Lemma plan_ascending (c : Instellingen) :
  NoDup (looptijden c) -> NoDupA Qeq (rentes c) -> ascending (plan c).
Proof.
  intros Ht Hr. unfold ascending, plan.
  apply FOP_flat_map.
  - intros t _. apply FOP_flat_map.
    + intros r _. apply FOP_map. cbn.
      eapply FOP_impl; [|apply FOP_filter, arange_ascending].
      intros x y H _ _. exact H.
    + eapply FOP_impl; [|apply NoDupA_distinct, Hr].
      intros r r' Hne y y' Hy Hy'.
      apply in_map_iff in Hy as (E & <- & _).
      apply in_map_iff in Hy' as (E' & <- & _). cbn. intros _ H.
      contradiction.
  - eapply FOP_impl; [|apply NoDup_distinct, Ht].
    intros t t' Hne y y' Hy Hy'.
    apply in_flat_map in Hy as (r & _ & Hy).
    apply in_map_iff in Hy as (E & <- & _).
    apply in_flat_map in Hy' as (r' & _ & Hy').
    apply in_map_iff in Hy' as (E' & <- & _). cbn. intros H. contradiction.
Qed.

(** On an ascending table the first minimal row of a group has the
    smallest down payment among the rows of the group that reach the
    minimum. *)
Lemma selected_smallest (col : Scenario -> Q) (rows : list Scenario)
    (o : Optimalisatie) (v : Q) (d : Z) :
  ascending (map cell_of rows) ->
  selected col rows o v d ->
  forall r, In r rows -> same_group r o -> col r == v -> (d <= s_inbreng r)%Z.
Proof.
  intros Hasc (pre & r0 & post & -> & [Gt Gr] & <- & <- & Hlt & _) r Hr [Ht Hq] Ev.
  apply in_app_or in Hr as [Hr|[<-|Hr]].
  - exfalso. apply (Qlt_irrefl (col r0)).
    rewrite <- Ev at 2. apply Hlt; [exact Hr | now split].
  - lia.
  - rewrite map_app in Hasc. cbn [map] in Hasc.
    pose proof (FOP_later _ _ _ _ Hasc (cell_of r) (in_map _ _ _ Hr)) as H.
    cbn in H. apply Z.lt_le_incl, H; [congruence|].
    now rewrite Gr, Hq.
Qed.

(** C10.  Let every term and every rate be requested once.  On each line of
    the summary of the table, the reported row is the first row of the group
    in table order on which the mean cost is minimal (every earlier row of
    the group costs strictly more), and among the rows of the group that
    reach this minimum it has the smallest down payment; the same holds for
    the worst-case cost. *)
Theorem optimiser_tie_break (c : Instellingen) (s s' : RandomState)
    (rows : list Scenario) (opts : list Optimalisatie) :
  NoDup (looptijden c) -> NoDupA Qeq (rentes c) ->
  results c s = Ok (rows, s') -> optimalisaties rows = Ok opts ->
  forall o, In o opts ->
    selected s_netto_kost_mean rows o
      (o_min_netto_kost_mean o) (o_inbreng_min_kost_mean o) /\
    selected s_netto_kost_worst rows o
      (o_min_netto_kost_worst o) (o_inbreng_min_kost_worst o) /\
    (forall r, In r rows -> same_group r o ->
       s_netto_kost_mean r == o_min_netto_kost_mean o ->
       (o_inbreng_min_kost_mean o <= s_inbreng r)%Z) /\
    (forall r, In r rows -> same_group r o ->
       s_netto_kost_worst r == o_min_netto_kost_worst o ->
       (o_inbreng_min_kost_worst o <= s_inbreng r)%Z).
Proof.
  intros Ht Hr Hrun Hopt o Ho.
  assert (Hne : rows <> []) by (intros ->; discriminate Hopt).
  destruct (optimalisaties_spec rows Hne) as (opts' & Hopt' & _ & Hsel).
  rewrite Hopt in Hopt'. injection Hopt' as <-.
  destruct (Hsel o Ho) as [Sm Sw].
  assert (Hasc : ascending (map cell_of rows)).
  { rewrite (proj1 (results_plan c s s' rows Hrun)). now apply plan_ascending. }
  split; [exact Sm|]. split; [exact Sw|]. split.
  - exact (selected_smallest _ _ _ _ _ Hasc Sm).
  - exact (selected_smallest _ _ _ _ _ Hasc Sw).
Qed.

Lemma optimiser_tie_break_witness :
  exists rows s' opts o r1 r2,
    results gelijkspel teller = Ok (rows, s') /\
    optimalisaties rows = Ok opts /\
    rows = [r1; r2] /\ opts = [o] /\
    s_inbreng r1 = 0%Z /\ s_inbreng r2 = 1000%Z /\
    s_netto_kost_mean r1 == s_netto_kost_mean r2 /\
    s_netto_kost_worst r1 == s_netto_kost_worst r2 /\
    o_inbreng_min_kost_mean o = 0%Z /\ o_inbreng_min_kost_worst o = 0%Z /\
    (selected s_netto_kost_mean rows o
       (o_min_netto_kost_mean o) (o_inbreng_min_kost_mean o) /\
     selected s_netto_kost_worst rows o
       (o_min_netto_kost_worst o) (o_inbreng_min_kost_worst o) /\
     (forall r, In r rows -> same_group r o ->
        s_netto_kost_mean r == o_min_netto_kost_mean o ->
        (o_inbreng_min_kost_mean o <= s_inbreng r)%Z) /\
     (forall r, In r rows -> same_group r o ->
        s_netto_kost_worst r == o_min_netto_kost_worst o ->
        (o_inbreng_min_kost_worst o <= s_inbreng r)%Z)).
Proof.
  do 6 eexists.
  split; [vm_compute; reflexivity|].
  split; [vm_compute; reflexivity|].
  split; [reflexivity|]. split; [reflexivity|].
  split; [reflexivity|]. split; [reflexivity|].
  split; [reflexivity|]. split; [reflexivity|].
  split; [reflexivity|]. split; [reflexivity|].
  eapply (optimiser_tie_break gelijkspel teller).
  - repeat constructor. simpl. tauto.
  - repeat constructor. intros H. inversion H.
  - vm_compute; reflexivity.
  - vm_compute; reflexivity.
  - left; reflexivity.
Defined.

(** A tie in both columns between the first two rows goes to the first. *)
Example tie_goes_to_first_row :
  optimalisaties [voorbeeld_rij 0 90000 95000; voorbeeld_rij 1000 90000 95000;
                  voorbeeld_rij 2000 91000 96000] =
  Ok [ {| o_looptijd := 25; o_rente := 38 # 10;
          o_min_netto_kost_mean := 90000; o_inbreng_min_kost_mean := 0;
          o_min_netto_kost_worst := 95000; o_inbreng_min_kost_worst := 0 |} ].
Proof. reflexivity. Qed.

(** ** Dependence on the generator *)

Lemma same_stream_refl (s : RandomState) : same_stream s s.
Proof. intros k. reflexivity. Qed.

Lemma uniform_ret {A} (a : A) : uniform (ret a).
Proof. intros s1 s2 H. cbn. now split. Qed.

Lemma uniform_lift {A} (x : result A) : uniform (lift x).
Proof. intros s1 s2 H. unfold lift. destruct x; cbn; [now split | reflexivity]. Qed.

Lemma uniform_bind {A B} (m : M A) (f : A -> M B) :
  uniform m -> (forall a, uniform (f a)) -> uniform (bind m f).
Proof.
  intros Hm Hf s1 s2 H. unfold bind. specialize (Hm s1 s2 H).
  destruct (m s1) as [[a1 t1]|e1], (m s2) as [[a2 t2]|e2]; cbn in Hm;
    try contradiction.
  - destruct Hm as [<- Ht]. now apply Hf.
  - exact Hm.
Qed.

Lemma uniform_legacy_gauss : uniform Np.legacy_gauss.
Proof.
  intros s1 s2 H. cbn. split.
  - specialize (H 0%nat). now rewrite !Nat.add_0_r in H.
  - intros k. cbn. specialize (H (S k)).
    now rewrite !Nat.add_succ_r in H.
Qed.

Lemma uniform_fill {A} (k : nat) (m : M A) : uniform m -> uniform (Np.fill k m).
Proof.
  intros Hm. induction k as [|k IH]; cbn [Np.fill]; [apply uniform_ret|].
  apply uniform_bind; [exact Hm|]. intros x.
  apply uniform_bind; [exact IH|]. intros xs. apply uniform_ret.
Qed.

Lemma uniform_for_each {A B} (l : list A) (body : A -> M (list B)) :
  (forall x, uniform (body x)) -> uniform (for_each l body).
Proof.
  intros Hb. induction l as [|x l IH]; cbn [for_each]; [apply uniform_ret|].
  apply uniform_bind; [apply Hb|]. intros rs.
  apply uniform_bind; [exact IH|]. intros rest. apply uniform_ret.
Qed.

Lemma uniform_monte_carlo (start mean vol : Q) (years n : Z) :
  uniform (monte_carlo_etf_return start mean vol years n).
Proof.
  unfold monte_carlo_etf_return. apply uniform_bind.
  - unfold Np.random_normal.
    destruct (_ || _ || _); [apply uniform_lift|].
    apply uniform_fill, uniform_fill. unfold Np.legacy_normal.
    apply uniform_bind; [apply uniform_legacy_gauss|].
    intros z. apply uniform_ret.
  - intros rows. apply uniform_bind; [apply uniform_lift|].
    intros l. apply uniform_ret.
Qed.

Lemma uniform_scenario (c : Instellingen) (t : Z) (r : Q) (E : Z) :
  uniform (scenario c t r E).
Proof.
  unfold scenario. cbv zeta.
  destruct (_ <? _)%Z; [apply uniform_ret|].
  apply uniform_bind; [apply uniform_lift|]. intros maand.
  apply uniform_bind; [apply uniform_monte_carlo|]. intros eind.
  apply uniform_bind; [apply uniform_lift|]. intros gem.
  apply uniform_bind; [apply uniform_lift|]. intros worst.
  apply uniform_ret.
Qed.

(** ** The reproducibility claim *)

(** C9, against the claim as stated: the script has no seed, it reads the
    generator of the process, and a run leaves that generator advanced.  Two
    runs in a row with the same settings give different tables: the mean
    investment value of the first row is 2250 in the first run and 8250 in
    the second. *)
Lemma consecutive_runs_differ :
  exists rows1 s1 rows2 s2 r1 r2,
    results voorbeeld teller = Ok (rows1, s1) /\
    results voorbeeld s1 = Ok (rows2, s2) /\
    nth_error rows1 0 = Some r1 /\ nth_error rows2 0 = Some r2 /\
    s_etf_gem r1 == 2250 /\ s_etf_gem r2 == 8250 /\
    rows1 <> rows2.
Proof.
  do 6 eexists.
  split; [vm_compute; reflexivity|].
  split; [vm_compute; reflexivity|].
  split; [reflexivity|]. split; [reflexivity|].
  split; [reflexivity|]. split; [reflexivity|].
  discriminate.
Qed.

(** C9, amended.  The table is a function of the settings and of the
    deviates the generator of the process is about to deliver: two runs with
    the same settings, started on generators that agree on all deviates to
    come, end with the same rows (or the same exception) and leave
    generators that still agree. *)
Theorem table_determined_by_stream (c : Instellingen) (s1 s2 : RandomState) :
  same_stream s1 s2 -> agree (results c s1) (results c s2).
Proof.
  revert s1 s2. change (uniform (results c)). unfold results.
  apply uniform_for_each. intros t.
  apply uniform_for_each. intros r.
  apply uniform_for_each. intros E.
  apply uniform_scenario.
Qed.

Lemma table_determined_by_stream_witness :
  agree (results voorbeeld teller) (results voorbeeld teller_verschoven).
Proof.
  apply (table_determined_by_stream voorbeeld teller teller_verschoven).
  intros k. cbn. do 2 f_equal. lia.
Defined.

(** * Further properties of the simulation *)

Lemma monte_carlo_value_error (start mean vol : Q) (years n : Z) (s : RandomState) :
  vol < 0 \/ (n < 0)%Z \/ (years < 0)%Z ->
  monte_carlo_etf_return start mean vol years n s = Raise ValueError.
Proof.
  intros H. unfold monte_carlo_etf_return, Np.random_normal.
  assert (E : Qlt_bool vol 0 || (n <? 0)%Z || (years <? 0)%Z = true).
  { rewrite !orb_true_iff, Qlt_bool_true, !Z.ltb_lt. tauto. }
  rewrite E. reflexivity.
Qed.

Lemma monte_carlo_index_error (start mean vol : Q) (n : Z) (s : RandomState) :
  0 <= vol -> (0 <= n)%Z ->
  monte_carlo_etf_return start mean vol 0 n s = Raise IndexError.
Proof.
  intros Hv Hn. destruct s as [d c].
  unfold monte_carlo_etf_return, Np.random_normal.
  assert (E1 : Qlt_bool vol 0 = false) by now apply Qlt_bool_false.
  assert (E2 : (n <? 0)%Z = false) by lia.
  rewrite E1, E2. cbn [orb Z.ltb Z.compare].
  unfold bind at 1. rewrite fill_rows. reflexivity.
Qed.

Lemma monte_carlo_ok_inv (start mean vol : Q) (years n : Z)
    (s s' : RandomState) (vals : list Q) :
  monte_carlo_etf_return start mean vol years n s = Ok (vals, s') ->
  (0 <= vol /\ (0 <= n)%Z /\ (0 < years)%Z) /\
  vals = map (fun i => start *
                last (Np.cumprod (map (Qplus 1)
                        (trial_returns s mean vol (Z.to_nat years) i))) 0)
             (seq 0 (Z.to_nat n)) /\
  s' = advance s (Z.to_nat n * Z.to_nat years).
Proof.
  intros H.
  destruct (Qlt_le_dec vol 0) as [Hv|Hv].
  { rewrite monte_carlo_value_error in H by tauto. discriminate. }
  destruct (Z.lt_ge_cases n 0) as [Hn|Hn].
  { rewrite monte_carlo_value_error in H by tauto. discriminate. }
  destruct (Z.lt_trichotomy years 0) as [Hy|[Hy|Hy]].
  { rewrite monte_carlo_value_error in H by tauto. discriminate. }
  { subst years. rewrite monte_carlo_index_error in H by assumption.
    discriminate. }
  rewrite (monte_carlo_run start mean vol years n s Hv Hy Hn) in H.
  injection H as <- <-. repeat split; assumption.
Qed.

(** How [monte_carlo_etf_return] fails.  A negative volatility, a negative
    number of trials or a negative number of years raises [ValueError]; with
    those three non-negative, zero years raises [IndexError], for any number
    of trials; and whenever the call returns, the volatility and the number
    of trials were non-negative, the years positive, there is one value per
    trial and the generator has moved on by trials times years deviates. *)
Theorem monte_carlo_failure_modes
    (start mean vol : Q) (years n : Z) (s : RandomState) :
  (vol < 0 \/ (n < 0)%Z \/ (years < 0)%Z ->
   monte_carlo_etf_return start mean vol years n s = Raise ValueError) /\
  (0 <= vol -> (0 <= n)%Z -> years = 0%Z ->
   monte_carlo_etf_return start mean vol years n s = Raise IndexError) /\
  (forall vals s',
     monte_carlo_etf_return start mean vol years n s = Ok (vals, s') ->
     0 <= vol /\ (0 <= n)%Z /\ (0 < years)%Z /\
     length vals = Z.to_nat n /\
     s' = advance s (Z.to_nat n * Z.to_nat years)).
Proof.
  split; [apply monte_carlo_value_error|]. split.
  - intros Hv Hn ->. now apply monte_carlo_index_error.
  - intros vals s' H.
    apply monte_carlo_ok_inv in H as ((Hv & Hn & Hy) & -> & ->).
    repeat split; try assumption. now rewrite length_map, length_seq.
Qed.

Lemma monte_carlo_failure_modes_witness :
  monte_carlo_etf_return 1000 (9 # 100) (-1 # 100) 25 3000 teller =
    Raise ValueError /\
  monte_carlo_etf_return 1000 (9 # 100) (15 # 100) 0 3000 teller =
    Raise IndexError /\
  exists vals s',
    monte_carlo_etf_return 1500 0 1 1 2 teller = Ok (vals, s') /\
    0 <= 1 /\ (0 <= 2)%Z /\ (0 < 1)%Z /\
    length vals = Z.to_nat 2 /\
    s' = advance teller (Z.to_nat 2 * Z.to_nat 1).
Proof.
  split; [|split].
  - apply (proj1 (monte_carlo_failure_modes 1000 (9 # 100) (-1 # 100) 25 3000
                    teller)).
    left. reflexivity.
  - apply (proj1 (proj2 (monte_carlo_failure_modes 1000 (9 # 100) (15 # 100)
                           0 3000 teller)));
      [vm_compute; discriminate | vm_compute; discriminate | reflexivity].
  - do 2 eexists. split; [vm_compute; reflexivity|].
    apply (proj2 (proj2 (monte_carlo_failure_modes 1500 0 1 1 2 teller))).
    vm_compute. reflexivity.
Defined.

(** * Further properties of the scenario table *)

Lemma filter_seq_prefix (p : nat -> bool) (n n' : nat) :
  (n' <= n)%nat -> (forall k, (k < n)%nat -> p k = (k <? n')%nat) ->
  filter p (seq 0 n) = seq 0 n'.
Proof.
  revert n'. induction n as [|n IH]; intros n' Hle Hp.
  - now replace n' with 0%nat by lia.
  - rewrite seq_S, filter_app. cbn [filter Nat.add].
    destruct (Nat.eq_dec n' (S n)) as [->|Hne].
    + rewrite (IH n) by (auto; intros k Hk; rewrite Hp by lia;
                         destruct (Nat.ltb_spec k (S n)), (Nat.ltb_spec k n);
                         try reflexivity; lia).
      rewrite (Hp n) by lia.
      destruct (Nat.ltb_spec n (S n)); [|lia]. now rewrite seq_S.
    + rewrite (IH n') by (try lia; intros k Hk; apply Hp; lia).
      rewrite (Hp n) by lia.
      destruct (Nat.ltb_spec n n'); [lia|]. apply app_nil_r.
Qed.

Lemma filter_map_comm {A B} (p : B -> bool) (f : A -> B) (l : list A) :
  filter p (map f l) = map f (filter (fun x => p (f x)) l).
Proof.
  induction l as [|x l IH]; cbn; [reflexivity|].
  destruct (p (f x)); cbn; now rewrite IH.
Qed.

Lemma arange_length (stop : Z) :
  length (Np.arange 0 stop 1000) = Z.to_nat ((stop + 999) / 1000).
Proof.
  unfold Np.arange. rewrite length_map, length_seq. f_equal. f_equal. lia.
Qed.

(** Dropping the down payments above the price leaves the grid up to the
    smaller of savings and price. *)
Lemma down_payments_arange (c : Instellingen) :
  down_payments c =
  Np.arange 0 (Z.min (totale_spaarpot c) (woningprijs c) + 1) 1000.
Proof.
  unfold down_payments, inbreng_values, Np.arange.
  set (S := totale_spaarpot c). set (W := woningprijs c).
  replace (S + 1 - 0 + 1000 - 1)%Z with (S + 1000)%Z by lia.
  replace (Z.min S W + 1 - 0 + 1000 - 1)%Z with (Z.min S W + 1000)%Z by lia.
  pose proof (Z.div_mod (S + 1000) 1000 ltac:(lia)) as D1.
  pose proof (Z.mod_pos_bound (S + 1000) 1000 ltac:(lia)) as B1.
  pose proof (Z.div_mod (Z.min S W + 1000) 1000 ltac:(lia)) as D2.
  pose proof (Z.mod_pos_bound (Z.min S W + 1000) 1000 ltac:(lia)) as B2.
  set (n := Z.to_nat ((S + 1000) / 1000)).
  set (n' := Z.to_nat ((Z.min S W + 1000) / 1000)).
  assert (Hle : (n' <= n)%nat) by (subst n n'; lia).
  rewrite filter_map_comm. f_equal.
  apply filter_seq_prefix; [exact Hle|].
  intros k Hk. subst n n'.
  destruct (Z.leb_spec (0 + Z.of_nat k * 1000) W),
           (Nat.ltb_spec k (Z.to_nat ((Z.min S W + 1000) / 1000)));
    try reflexivity; lia.
Qed.

Lemma down_payments_length (c : Instellingen) :
  length (down_payments c) =
  Z.to_nat (Z.min (totale_spaarpot c) (woningprijs c) / 1000 + 1).
Proof.
  rewrite down_payments_arange, arange_length. f_equal.
  replace (Z.min (totale_spaarpot c) (woningprijs c) + 1 + 999)%Z
    with (Z.min (totale_spaarpot c) (woningprijs c) + 1 * 1000)%Z by lia.
  now rewrite Z.div_add by lia.
Qed.

Lemma flat_map_length_const {A B} (h : A -> list B) (l : list A) (n : nat) :
  (forall x, In x l -> length (h x) = n) ->
  length (flat_map h l) = (length l * n)%nat.
Proof.
  induction l as [|x l IH]; intros H; cbn; [reflexivity|].
  rewrite length_app, (H x) by now left.
  rewrite IH by (intros y Hy; apply H; now right). reflexivity.
Qed.

Lemma plan_length (c : Instellingen) :
  length (plan c) =
  (length (looptijden c) * (length (rentes c) * length (down_payments c)))%nat.
Proof.
  unfold plan. apply flat_map_length_const. intros t _.
  apply flat_map_length_const. intros r _. apply length_map.
Qed.

(** The size of the table: one row for every requested term, every
    requested rate and every multiple of 1000 from 0 up to the smaller of
    savings and price, which makes [min(savings, price) div 1000 + 1] down
    payments, and none when savings or price are negative. *)
Theorem table_size (c : Instellingen) (s s' : RandomState) (rows : list Scenario) :
  results c s = Ok (rows, s') ->
  length rows =
  (length (looptijden c) * (length (rentes c) *
     Z.to_nat (Z.min (totale_spaarpot c) (woningprijs c) / 1000 + 1)))%nat.
Proof.
  intros H. apply results_plan in H as [Hp _].
  rewrite <- down_payments_length, <- plan_length, <- Hp. now rewrite length_map.
Qed.

Lemma table_size_witness :
  exists rows s',
    results voorbeeld teller = Ok (rows, s') /\
    length rows =
    (length (looptijden voorbeeld) * (length (rentes voorbeeld) *
       Z.to_nat (Z.min (totale_spaarpot voorbeeld) (woningprijs voorbeeld)
                 / 1000 + 1)))%nat.
Proof.
  do 2 eexists. split; [vm_compute; reflexivity|].
  eapply (table_size voorbeeld teller). vm_compute; reflexivity.
Defined.

(** One pass of the innermost body, with what it does to the generator and
    where the investment columns come from. *)
Lemma scenario_inv_run (c : Instellingen) (t : Z) (r : Q) (E : Z)
    (s s' : RandomState) (rows : list Scenario) :
  scenario c t r E s = Ok (rows, s') ->
  (rows = [] /\ s' = s) \/
  (exists row eindwaarden,
     rows = [row] /\ cell_of row = (t, r, E) /\
     monte_carlo_etf_return (inject_Z (totale_spaarpot c - E))
       (etf_rendement c) (etf_volatiliteit c) t (simulaties c) s =
       Ok (eindwaarden, s') /\
     Np.mean eindwaarden = Ok (s_etf_gem row) /\
     Np.percentile eindwaarden 5 = Ok (s_etf_worst row)).
Proof.
  unfold scenario. cbv zeta.
  destruct (woningprijs c - E <? 0)%Z.
  - intros H. apply ret_inv in H as [-> ->]. now left.
  - intros H. right.
    apply bind_inv in H as (maand & s1 & H1 & H).
    apply lift_inv in H1 as [_ ->].
    apply bind_inv in H as (eind & s2 & Hmc & H).
    apply bind_inv in H as (gem & s3 & Hg & H).
    apply lift_inv in Hg as [Hg ->].
    apply bind_inv in H as (worst & s4 & Hw & H).
    apply lift_inv in Hw as [Hw ->].
    apply ret_inv in H as [-> ->].
    eexists _, eind. split; [reflexivity|]. split; [reflexivity|].
    split; [exact Hmc|]. split; [exact Hg | exact Hw].
Qed.

Lemma for_each_Forall {A B} (P : B -> Prop) (l : list A) (body : A -> M (list B)) :
  (forall x s rs s', In x l -> body x s = Ok (rs, s') -> Forall P rs) ->
  forall s rows s', for_each l body s = Ok (rows, s') -> Forall P rows.
Proof.
  intros Hb s rows s' H.
  destruct (for_each_inv l body (fun _ rs => Forall P rs) Hb s rows s' H)
    as (rss & -> & HF).
  apply concat_Forall. exact (Forall2_right _ l rss HF).
Qed.

Lemma results_etf (c : Instellingen) (s s' : RandomState) (rows : list Scenario) :
  results c s = Ok (rows, s') -> Forall (etf_ok c) rows.
Proof.
  unfold results. apply for_each_Forall. intros t s1 rs1 s1' _.
  apply for_each_Forall. intros r s2 rs2 s2' _.
  apply for_each_Forall. intros E s3 rs3 s3' _ H.
  apply scenario_inv_run in H
    as [[-> _]|(row & eind & -> & Hc & Hmc & Hg & Hw)]; [constructor|].
  constructor; [|constructor].
  injection Hc as Ht _ HE. exists eind, s3, s3'.
  rewrite Ht, HE. now repeat split.
Qed.

Lemma for_each_consumed {A B} (cost : B -> nat) (l : list A)
    (body : A -> M (list B)) :
  (forall x s rs s', body x s = Ok (rs, s') ->
     deviates s' = deviates s /\
     cursor s' = (cursor s + list_sum (map cost rs))%nat) ->
  forall s rows s',
    for_each l body s = Ok (rows, s') ->
    deviates s' = deviates s /\
    cursor s' = (cursor s + list_sum (map cost rows))%nat.
Proof.
  intros Hb. induction l as [|x l IH]; intros s rows s' H.
  - apply ret_inv in H as [-> ->]. cbn. split; [reflexivity | lia].
  - cbn [for_each] in H.
    apply bind_inv in H as (rs & s1 & H1 & H).
    apply bind_inv in H as (rest & s2 & H2 & H).
    apply ret_inv in H as [-> ->].
    destruct (Hb _ _ _ _ H1) as [D1 C1]. destruct (IH _ _ _ H2) as [D2 C2].
    split; [congruence|].
    rewrite map_app, list_sum_app. lia.
Qed.

(** What a run costs the generator of the process.  Every row of the table
    has consumed trials times years deviates and a skipped cell none, so the
    run leaves the generator further along by the sum of these over the rows
    of the table; the deviates themselves are not changed. *)
Theorem results_consume_deviates (c : Instellingen) (s s' : RandomState)
    (rows : list Scenario) :
  results c s = Ok (rows, s') ->
  deviates s' = deviates s /\
  cursor s' = (cursor s + deviates_used c rows)%nat.
Proof.
  unfold results, deviates_used. apply for_each_consumed. intros t s1 rs1 s1'.
  apply for_each_consumed. intros r s2 rs2 s2'.
  apply for_each_consumed. intros E s3 rs3 s3' H.
  apply scenario_inv_run in H
    as [[-> ->]|(row & eind & -> & Hc & Hmc & _)].
  - cbn. split; [reflexivity | lia].
  - apply monte_carlo_ok_inv in Hmc as (_ & _ & ->).
    injection Hc as Ht _ _. cbn. rewrite Ht. split; [reflexivity | lia].
Qed.

Lemma results_consume_deviates_witness :
  exists rows s',
    results voorbeeld teller = Ok (rows, s') /\
    deviates s' = deviates teller /\
    cursor s' = (cursor teller + deviates_used voorbeeld rows)%nat.
Proof.
  do 2 eexists. split; [vm_compute; reflexivity|].
  eapply (results_consume_deviates voorbeeld teller). vm_compute; reflexivity.
Defined.

Lemma monte_carlo_sample_all_eq (start mean vol v : Q) (years n : Z)
    (s s' : RandomState) (vals : list Q) :
  monte_carlo_etf_return start mean vol years n s = Ok (vals, s') ->
  (forall i, start * compound (trial_returns s mean vol (Z.to_nat years) i) == v) ->
  all_eq v vals.
Proof.
  intros H Hc. apply monte_carlo_ok_inv in H as ((_ & _ & Hy) & -> & _).
  apply Forall_forall. intros x Hx. apply in_map_iff in Hx as (i & <- & _).
  rewrite last_cumprod_compound by (apply returns_at_nonempty; lia).
  apply Hc.
Qed.

Lemma mean_ok_nonempty (l : list Q) (m : Q) : Np.mean l = Ok m -> l <> [].
Proof. destruct l; [discriminate | discriminate]. Qed.

(** The investment columns of a row whose simulated values all equal [v]. *)
Lemma etf_columns_const (c : Instellingen) (r : Scenario) (v : Q) :
  etf_ok c r ->
  (forall s i,
     inject_Z (totale_spaarpot c - s_inbreng r) *
     compound (trial_returns s (etf_rendement c) (etf_volatiliteit c)
                 (Z.to_nat (s_looptijd r)) i) == v) ->
  s_etf_gem r == v /\ s_etf_worst r == v.
Proof.
  intros (eind & s & s' & Hmc & Hg & Hw) Hc.
  pose proof (monte_carlo_sample_all_eq _ _ _ v _ _ _ _ _ Hmc (Hc s)) as Hall.
  pose proof (mean_ok_nonempty _ _ Hg) as Hne.
  destruct (mean_const v eind Hne Hall) as (m & Hm & Em).
  destruct (percentile_const v 5 eind ltac:(lra) ltac:(lra) Hne Hall)
    as (p & Hp & Ep).
  rewrite Hg in Hm. injection Hm as <-.
  rewrite Hw in Hp. injection Hp as <-. now split.
Qed.

Lemma etf_ok_years (c : Instellingen) (r : Scenario) :
  etf_ok c r -> (0 < s_looptijd r)%Z.
Proof.
  intros (eind & s & s' & Hmc & _).
  now apply monte_carlo_ok_inv in Hmc as ((_ & _ & Hy) & _).
Qed.

(** With a volatility of zero the table does not depend on the generator:
    in every row the mean and the 5th percentile of the investment are both
    the savings left after the down payment, compounded at the expected
    return over the term, so the two net costs of the row coincide. *)
Theorem zero_volatility_table (c : Instellingen) (s s' : RandomState)
    (rows : list Scenario) :
  etf_volatiliteit c == 0 -> results c s = Ok (rows, s') ->
  Forall (fun r =>
            s_etf_gem r ==
              inject_Z (totale_spaarpot c - s_inbreng r) *
              (1 + etf_rendement c) ^ s_looptijd r /\
            s_etf_worst r == s_etf_gem r /\
            s_netto_kost_worst r == s_netto_kost_mean r) rows.
Proof.
  intros Hv Hrun.
  pose proof (results_etf c s s' rows Hrun) as Hetf.
  apply results_plan in Hrun as [_ Hok].
  rewrite Forall_forall in *. intros r Hr.
  pose proof (etf_ok_years c r (Hetf r Hr)) as Hy.
  destruct (etf_columns_const c r
              (inject_Z (totale_spaarpot c - s_inbreng r) *
               (1 + etf_rendement c) ^ s_looptijd r) (Hetf r Hr))
    as [Eg Ew].
  { intros s0 i. apply Qmult_comp; [reflexivity|].
    rewrite compound_const by (apply returns_at_zero_scale; exact Hv).
    unfold trial_returns. rewrite returns_at_length, Z2Nat.id by lia.
    reflexivity. }
  split; [exact Eg|]. split; [now rewrite Ew, Eg|].
  rewrite (ok_netto_kost_worst (Hok r Hr)), (ok_netto_kost_mean (Hok r Hr)).
  now rewrite Ew, Eg.
Qed.

Lemma zero_volatility_table_witness :
  let c := {| woningprijs := 250000; totale_spaarpot := 1000;
              looptijden := [2%Z]; rentes := [38 # 10];
              etf_rendement := 9 # 100; etf_volatiliteit := 0;
              simulaties := 3 |} in
  exists rows s',
    results c teller = Ok (rows, s') /\
    Forall (fun r =>
              s_etf_gem r ==
                inject_Z (totale_spaarpot c - s_inbreng r) *
                (1 + etf_rendement c) ^ s_looptijd r /\
              s_etf_worst r == s_etf_gem r /\
              s_netto_kost_worst r == s_netto_kost_mean r) rows.
Proof.
  intros c. do 2 eexists. split; [vm_compute; reflexivity|].
  eapply (zero_volatility_table c teller);
    [reflexivity | vm_compute; reflexivity].
Defined.

(** A row that puts all savings into the down payment has nothing invested:
    its mean and worst-case investment values are zero, whatever the
    deviates, and both net costs equal the total repaid. *)
Theorem all_savings_down (c : Instellingen) (s s' : RandomState)
    (rows : list Scenario) (r : Scenario) :
  results c s = Ok (rows, s') -> In r rows ->
  s_inbreng r = totale_spaarpot c ->
  s_etf_gem r == 0 /\ s_etf_worst r == 0 /\
  s_netto_kost_mean r == s_totale_afbetaling r /\
  s_netto_kost_worst r == s_totale_afbetaling r.
Proof.
  intros Hrun Hr HE.
  pose proof (results_etf c s s' rows Hrun) as Hetf.
  apply results_plan in Hrun as [_ Hok].
  rewrite Forall_forall in *.
  destruct (etf_columns_const c r 0 (Hetf r Hr)) as [Eg Ew].
  { intros s0 i. rewrite HE, Z.sub_diag. apply Qmult_0_l. }
  split; [exact Eg|]. split; [exact Ew|].
  rewrite (ok_netto_kost_worst (Hok r Hr)), (ok_netto_kost_mean (Hok r Hr)).
  rewrite Eg, Ew. split; ring.
Qed.

Lemma all_savings_down_witness :
  let c := {| woningprijs := 2000; totale_spaarpot := 1000;
              looptijden := [1%Z]; rentes := [0];
              etf_rendement := 0; etf_volatiliteit := 1;
              simulaties := 2 |} in
  exists rows s' r,
    results c teller = Ok (rows, s') /\ nth_error rows 1 = Some r /\
    s_etf_gem r == 0 /\ s_etf_worst r == 0 /\
    s_netto_kost_mean r == s_totale_afbetaling r /\
    s_netto_kost_worst r == s_totale_afbetaling r.
Proof.
  intros c. do 3 eexists. split; [vm_compute; reflexivity|].
  split; [reflexivity|].
  eapply (all_savings_down c teller).
  - vm_compute; reflexivity.
  - right; left; reflexivity.
  - reflexivity.
Defined.

(** * Further properties of the summary *)

Lemma results_length (c : Instellingen) (s s' : RandomState) (rows : list Scenario) :
  results c s = Ok (rows, s') ->
  length rows =
  (length (looptijden c) * (length (rentes c) *
     Z.to_nat (Z.min (totale_spaarpot c) (woningprijs c) / 1000 + 1)))%nat.
Proof.
  intros H. apply results_plan in H as [Hp _].
  rewrite <- down_payments_length, <- plan_length, <- Hp. now rewrite length_map.
Qed.

(** When the script gets past the summary.  With no term or no rate
    selected, or with negative savings or a negative price, the table is
    empty and building the summary raises [KeyError]; in every other case
    the summary is built and has at least one line. *)
Theorem summary_exists_iff (c : Instellingen) (s s' : RandomState)
    (rows : list Scenario) :
  results c s = Ok (rows, s') ->
  (looptijden c = [] \/ rentes c = [] \/
   (totale_spaarpot c < 0)%Z \/ (woningprijs c < 0)%Z ->
   rows = [] /\ optimalisaties rows = Raise KeyError) /\
  (looptijden c <> [] -> rentes c <> [] ->
   (0 <= totale_spaarpot c)%Z -> (0 <= woningprijs c)%Z ->
   exists opts, optimalisaties rows = Ok opts /\ opts <> []).
Proof.
  intros Hrun. pose proof (results_length c s s' rows Hrun) as Hlen. split.
  - intros H.
    assert (E : rows = []).
    { apply length_zero_iff_nil. rewrite Hlen.
      destruct H as [->|[->|H]]; cbn; [reflexivity | lia |].
      assert ((Z.min (totale_spaarpot c) (woningprijs c) / 1000 < 0)%Z)
        by (apply Z.div_lt_upper_bound; lia).
      lia. }
    subst rows. now split.
  - intros Ht Hr HS HW.
    assert (Hne : rows <> []).
    { intros ->. cbn in Hlen.
      assert ((0 <= Z.min (totale_spaarpot c) (woningprijs c) / 1000)%Z)
        by (apply Z.div_pos; lia).
      destruct (looptijden c); [congruence|].
      destruct (rentes c); [congruence|]. cbn in Hlen. lia. }
    destruct (optimalisaties_spec rows Hne) as (opts & Hopt & Hcover & _).
    exists opts. split; [exact Hopt|].
    destruct rows as [|r0 rows]; [congruence|].
    destruct (Hcover r0 (or_introl eq_refl)) as (o & Ho & _).
    intros ->. destruct Ho.
Qed.

Lemma summary_exists_iff_witness :
  let c0 := {| woningprijs := 250000; totale_spaarpot := 150000;
               looptijden := []; rentes := [38 # 10];
               etf_rendement := 9 # 100; etf_volatiliteit := 15 # 100;
               simulaties := 3000 |} in
  (exists rows s',
     results c0 teller = Ok (rows, s') /\
     rows = [] /\ optimalisaties rows = Raise KeyError) /\
  (exists rows s' opts,
     results voorbeeld teller = Ok (rows, s') /\
     optimalisaties rows = Ok opts /\ opts <> []).
Proof.
  intros c0. split.
  - assert (H : results c0 teller = Ok ([], teller)) by reflexivity.
    exists [], teller. split; [exact H|].
    apply (proj1 (summary_exists_iff c0 teller teller [] H)).
    left. reflexivity.
  - assert (H : exists rows s', results voorbeeld teller = Ok (rows, s'))
      by (do 2 eexists; vm_compute; reflexivity).
    destruct H as (rows & s' & H). exists rows, s'.
    destruct (proj2 (summary_exists_iff voorbeeld teller s' rows H))
      as (opts & Ho & Hne);
      [discriminate | discriminate | vm_compute; discriminate
      | vm_compute; discriminate |].
    exists opts. now repeat split.
Defined.

Lemma for_each_result_inv {A B} (l : list A) (body : A -> result B) (ys : list B) :
  for_each_result l body = Ok ys ->
  Forall2 (fun x y => body x = Ok y) l ys.
Proof.
  revert ys. induction l as [|x l IH]; intros ys H; cbn in H.
  - injection H as <-. constructor.
  - destruct (body x) as [y|e] eqn:Ey; [|discriminate]. cbn in H.
    destruct (for_each_result l body) as [ys'|e]; [|discriminate]. cbn in H.
    injection H as <-. constructor; [exact Ey | now apply IH].
Qed.

Lemma Forall2_map_left {A B C} (P : B -> C -> Prop) (f : A -> B)
    (l : list A) (ys : list C) :
  Forall2 P (map f l) ys -> Forall2 (fun x y => P (f x) y) l ys.
Proof.
  revert ys. induction l as [|x l IH]; intros ys H; inversion H; subst;
    constructor; auto.
Qed.

Lemma Forall2_map_eq {A B C} (f : A -> C) (g : B -> C) (l : list A) (ys : list B) :
  Forall2 (fun x y => g y = f x) l ys -> map g ys = map f l.
Proof. induction 1; cbn; congruence. Qed.

(** The lines of the summary, one per group key in ascending order, each
    built from the two rows that [idxmin] and [loc] pick in the group. *)
Lemma optimalisaties_lines (rows : list Scenario) (opts : list Optimalisatie) :
  optimalisaties rows = Ok opts ->
  Forall2
    (fun k o =>
       exists rm rw,
         rbind (Pd.idxmin s_netto_kost_mean
                  (filter (fun ir => Pd.key_eqb (Pd.key_of (snd ir)) k)
                          (Pd.of_rows rows)))
               (Pd.loc (filter (fun ir => Pd.key_eqb (Pd.key_of (snd ir)) k)
                               (Pd.of_rows rows))) = Ok rm /\
         rbind (Pd.idxmin s_netto_kost_worst
                  (filter (fun ir => Pd.key_eqb (Pd.key_of (snd ir)) k)
                          (Pd.of_rows rows)))
               (Pd.loc (filter (fun ir => Pd.key_eqb (Pd.key_of (snd ir)) k)
                               (Pd.of_rows rows))) = Ok rw /\
         o = {| o_looptijd := fst k; o_rente := snd k;
                o_min_netto_kost_mean := s_netto_kost_mean rm;
                o_inbreng_min_kost_mean := s_inbreng rm;
                o_min_netto_kost_worst := s_netto_kost_worst rw;
                o_inbreng_min_kost_worst := s_inbreng rw |})
    (Pd.sort_keys (Pd.unique_keys []
       (map (fun ir => Pd.key_of (snd ir)) (Pd.of_rows rows))))
    opts.
Proof.
  intros H.
  assert (Hne : rows <> []) by (intros ->; discriminate H).
  unfold optimalisaties in H.
  rewrite (groupby_ok _ (of_rows_nonempty rows Hne)) in H. cbn [rbind] in H.
  apply for_each_result_inv, Forall2_map_left in H.
  eapply Forall2_impl; [|exact H]. clear H.
  intros [t r] o Hb. cbn [fst snd] in *.
  set (g := filter _ (Pd.of_rows rows)) in *.
  destruct (Pd.idxmin s_netto_kost_mean g) as [im|e] eqn:Eim; [|discriminate].
  cbn [rbind] in Hb.
  destruct (Pd.loc g im) as [rm|e] eqn:Erm; [|discriminate]. cbn [rbind] in Hb.
  destruct (Pd.idxmin s_netto_kost_worst g) as [iw|e] eqn:Eiw; [|discriminate].
  cbn [rbind] in Hb.
  destruct (Pd.loc g iw) as [rw|e] eqn:Erw; [|discriminate]. cbn [rbind] in Hb.
  injection Hb as <-. exists rm, rw. cbn [rbind].
  split; [exact Erm|]. split; [exact Erw | reflexivity].
Qed.

Lemma key_eqb_sym (k1 k2 : Pd.key) : Pd.key_eqb k1 k2 = Pd.key_eqb k2 k1.
Proof.
  destruct (Pd.key_eqb k2 k1) eqn:E.
  - apply key_eqb_true in E as [E1 E2]. apply key_eqb_true. now split.
  - destruct (Pd.key_eqb k1 k2) eqn:E'; [|reflexivity].
    apply key_eqb_true in E' as [E1 E2].
    rewrite <- E. symmetry. apply key_eqb_true. now split.
Qed.

Lemma key_eqb_trans (k1 k2 k3 : Pd.key) :
  Pd.key_eqb k1 k2 = true -> Pd.key_eqb k2 k3 = true -> Pd.key_eqb k1 k3 = true.
Proof.
  rewrite !key_eqb_true. intros [A1 A2] [B1 B2].
  split; [congruence | now rewrite A2].
Qed.

Lemma unique_keys_distinct (seen l : list Pd.key) :
  ForallOrdPairs (fun k k' => Pd.key_eqb k k' = false) (Pd.unique_keys seen l) /\
  (forall k k', In k (Pd.unique_keys seen l) -> In k' seen ->
     Pd.key_eqb k k' = false).
Proof.
  revert seen. induction l as [|k0 l IH]; intros seen; cbn.
  - split; [constructor | intros k k' []].
  - destruct (existsb (Pd.key_eqb k0) seen) eqn:Ex; [apply IH|].
    destruct (IH (k0 :: seen)) as [Hd Hs]. split.
    + constructor; [|exact Hd].
      apply Forall_forall. intros k Hk. rewrite key_eqb_sym.
      apply Hs; [exact Hk | now left].
    + intros k k' [<-|Hk] Hk'.
      * destruct (Pd.key_eqb k0 k') eqn:E; [|reflexivity].
        rewrite <- Ex. symmetry. apply existsb_exists. now exists k'.
      * apply Hs; [exact Hk | now right].
Qed.

Lemma key_leb_lt (k k' : Pd.key) :
  Pd.key_leb k k' = true -> Pd.key_eqb k k' = false -> key_lt k k'.
Proof.
  unfold Pd.key_leb, Pd.key_eqb, key_lt.
  destruct (Z.ltb_spec (fst k) (fst k')); [now left|].
  destruct (Z.eqb_spec (fst k) (fst k')); [|discriminate]. cbn.
  intros Hle Hne. right. split; [assumption|].
  apply Qle_bool_iff in Hle. apply Qeq_bool_false_neq in Hne.
  apply Qle_lteq in Hle as [Hlt|Heq]; [exact Hlt | contradiction].
Qed.

Lemma key_leb_false_lt (k k' : Pd.key) : Pd.key_leb k k' = false -> key_lt k' k.
Proof.
  unfold Pd.key_leb, key_lt.
  destruct (Z.ltb_spec (fst k) (fst k')); [discriminate|].
  destruct (Z.eqb_spec (fst k) (fst k')); cbn.
  - intros Hle. right. split; [congruence|].
    apply Qnot_le_lt. intros Hq. apply Qle_bool_iff in Hq. congruence.
  - intros _. left. lia.
Qed.

Lemma key_lt_trans (k1 k2 k3 : Pd.key) : key_lt k1 k2 -> key_lt k2 k3 -> key_lt k1 k3.
Proof.
  unfold key_lt. intros [A|[A1 A2]] [B|[B1 B2]].
  - left; lia.
  - left; lia.
  - left; lia.
  - right. split; [congruence | eapply Qlt_trans; eassumption].
Qed.

Lemma insert_key_sorted (k : Pd.key) (l : list Pd.key) :
  ForallOrdPairs key_lt l ->
  (forall k', In k' l -> Pd.key_eqb k k' = false) ->
  ForallOrdPairs key_lt (Pd.insert_key k l).
Proof.
  induction 1 as [|k' l Hk' Hl IH]; intros Hne; cbn.
  - repeat constructor.
  - rewrite Forall_forall in Hk'.
    destruct (Pd.key_leb k k') eqn:E.
    + pose proof (key_leb_lt k k' E (Hne k' (or_introl eq_refl))) as Hlt.
      constructor; [|now constructor; [apply Forall_forall|]].
      constructor; [exact Hlt|]. apply Forall_forall. intros x Hx.
      eapply key_lt_trans; [exact Hlt | now apply Hk'].
    + constructor.
      * apply Forall_forall. intros x Hx. apply insert_key_In in Hx as [->|Hx].
        -- now apply key_leb_false_lt.
        -- now apply Hk'.
      * apply IH. intros x Hx. apply Hne. now right.
Qed.

Lemma sort_keys_sorted (l : list Pd.key) :
  ForallOrdPairs (fun k k' => Pd.key_eqb k k' = false) l ->
  ForallOrdPairs key_lt (Pd.sort_keys l).
Proof.
  induction 1 as [|k l Hk _ IH]; cbn; [constructor|].
  apply insert_key_sorted; [exact IH|].
  intros k' Hk'. apply (proj1 (sort_keys_In k' l)) in Hk'.
  rewrite Forall_forall in Hk. exact (Hk k' Hk').
Qed.

Lemma FOP_map_inv {A B} (R : B -> B -> Prop) (g : A -> B) (l : list A) :
  ForallOrdPairs R (map g l) -> ForallOrdPairs (fun x y => R (g x) (g y)) l.
Proof.
  induction l as [|a l IH]; cbn; intros H; [constructor|].
  inversion H as [|b l' Hb Hl]; subst. constructor; [|now apply IH].
  rewrite Forall_forall in *. intros y Hy. apply Hb. now apply in_map.
Qed.

(** The summary lists the groups in strictly ascending order of term and,
    within a term, of rate; in particular no group has two lines. *)
Theorem summary_sorted (rows : list Scenario) (opts : list Optimalisatie) :
  optimalisaties rows = Ok opts ->
  ForallOrdPairs (fun o o' => key_lt (line_key o) (line_key o')) opts.
Proof.
  intros H. apply optimalisaties_lines in H.
  set (keys := Pd.sort_keys _) in H.
  assert (E : map line_key opts = keys).
  { rewrite <- (map_id keys). apply Forall2_map_eq.
    eapply Forall2_impl; [|exact H].
    intros [t r] o (rm & rw & _ & _ & ->). reflexivity. }
  apply FOP_map_inv. rewrite E.
  apply sort_keys_sorted. apply unique_keys_distinct.
Qed.

Lemma summary_sorted_witness :
  exists opts,
    optimalisaties [voorbeeld_rij 0 120000 95000;
                    {| s_looptijd := 15; s_rente := 5; s_inbreng := 0;
                       s_lening := 0; s_maandlast := 0;
                       s_totale_afbetaling := 0; s_etf_gem := 0;
                       s_etf_worst := 0; s_netto_kost_mean := 1;
                       s_netto_kost_worst := 2 |};
                    voorbeeld_rij 1000 90000 99000] = Ok opts /\
    ForallOrdPairs (fun o o' => key_lt (line_key o) (line_key o')) opts.
Proof.
  eexists. split; [vm_compute; reflexivity|].
  apply summary_sorted with (rows := [voorbeeld_rij 0 120000 95000;
                    {| s_looptijd := 15; s_rente := 5; s_inbreng := 0;
                       s_lening := 0; s_maandlast := 0;
                       s_totale_afbetaling := 0; s_etf_gem := 0;
                       s_etf_worst := 0; s_netto_kost_mean := 1;
                       s_netto_kost_worst := 2 |};
                    voorbeeld_rij 1000 90000 99000]).
  vm_compute; reflexivity.
Defined.

(** * The view of one scenario *)

Lemma key_eqb_congr (x k1 k2 : Pd.key) :
  Pd.key_eqb k1 k2 = true -> Pd.key_eqb x k1 = Pd.key_eqb x k2.
Proof.
  intros H. destruct (Pd.key_eqb x k2) eqn:E.
  - apply (key_eqb_trans x k2 k1 E). now rewrite key_eqb_sym.
  - destruct (Pd.key_eqb x k1) eqn:E'; [|reflexivity].
    rewrite <- E. symmetry. exact (key_eqb_trans x k1 k2 E' H).
Qed.

Lemma df_sel_group (df : Pd.DataFrame) (t : Z) (r : Q) (k : Pd.key) :
  Pd.key_eqb (t, r) k = true ->
  df_sel df t r = filter (fun ir => Pd.key_eqb (Pd.key_of (snd ir)) k) df.
Proof.
  intros H. unfold df_sel. apply filter_ext. intros ir.
  exact (key_eqb_congr (Pd.key_of (snd ir)) (t, r) k H).
Qed.

(** Every selectable scenario has a row in a table that is not empty. *)
Lemma results_group_inhabited (c : Instellingen) (s s' : RandomState)
    (rows : list Scenario) (t : Z) (r : Q) :
  results c s = Ok (rows, s') -> rows <> [] ->
  In t (looptijden c) -> In r (rentes c) ->
  exists row, In row rows /\ Pd.key_of row = (t, r).
Proof.
  intros Hrun Hne Ht Hr. apply results_plan in Hrun as [Hp _].
  destruct rows as [|r0 rows0]; [congruence|].
  assert (H0 : In (cell_of r0) (plan c)) by (rewrite <- Hp; now left).
  destruct (cell_of r0) as [[t0 q0] E0].
  apply plan_In in H0 as (_ & _ & HE & Hle).
  assert (H1 : In (t, r, E0) (plan c)) by (apply plan_In; tauto).
  rewrite <- Hp in H1. apply in_map_iff in H1 as (row & Hc & Hin).
  exists row. split; [exact Hin|]. injection Hc as <- <- _. reflexivity.
Qed.

(** The dashed lines of the chart stand where the summary says.  For a term
    and a rate picked from the selected ones, the summary has a line of that
    group, and the two vertical lines are drawn at the down payments this
    line reports for the mean and for the worst-case cost. *)
Theorem chart_marks_summary (c : Instellingen) (s s' : RandomState)
    (rows : list Scenario) (opts : list Optimalisatie) (t : Z) (r : Q) :
  results c s = Ok (rows, s') -> optimalisaties rows = Ok opts ->
  In t (looptijden c) -> In r (rentes c) ->
  exists o,
    In o opts /\ o_looptijd o = t /\ o_rente o == r /\
    axvline s_netto_kost_mean (df_sel (Pd.of_rows rows) t r) =
      Ok (o_inbreng_min_kost_mean o) /\
    axvline s_netto_kost_worst (df_sel (Pd.of_rows rows) t r) =
      Ok (o_inbreng_min_kost_worst o).
Proof.
  intros Hrun Hopt Ht Hr.
  assert (Hne : rows <> []) by (intros ->; discriminate Hopt).
  destruct (results_group_inhabited c s s' rows t r Hrun Hne Ht Hr)
    as (row & Hrow & Hk).
  pose proof (optimalisaties_lines rows opts Hopt) as HF.
  assert (Hin : In (t, r) (map (fun ir => Pd.key_of (snd ir)) (Pd.of_rows rows))).
  { rewrite <- Hk. rewrite <- (of_rows_rows rows) in Hrow.
    apply in_map_iff in Hrow as (ir & <- & Hir).
    apply in_map_iff. now exists ir. }
  apply (unique_keys_cover []) in Hin as (k & Hkin & Ek). cbn [app] in Hkin.
  apply sort_keys_In in Hkin.
  destruct (Forall2_In_l _ _ _ k HF Hkin) as (o & Ho & rm & rw & Hm & Hw & Eo).
  exists o. split; [exact Ho|]. rewrite Eo. cbn.
  apply key_eqb_true in Ek as Ek'. cbn in Ek'. destruct Ek' as [E1 E2].
  split; [now symmetry|]. split; [now symmetry|].
  unfold axvline. rewrite (df_sel_group _ t r k Ek).
  set (g := filter _ (Pd.of_rows rows)) in *.
  destruct (Pd.idxmin s_netto_kost_mean g) as [im|e]; [|discriminate Hm].
  destruct (Pd.idxmin s_netto_kost_worst g) as [iw|e]; [|discriminate Hw].
  cbn [rbind] in *. rewrite Hm, Hw. now split.
Qed.

Lemma chart_marks_summary_witness :
  exists rows s' opts o,
    results voorbeeld teller = Ok (rows, s') /\
    optimalisaties rows = Ok opts /\
    In o opts /\ o_looptijd o = 1%Z /\ o_rente o == 0 /\
    axvline s_netto_kost_mean (df_sel (Pd.of_rows rows) 1 0) =
      Ok (o_inbreng_min_kost_mean o) /\
    axvline s_netto_kost_worst (df_sel (Pd.of_rows rows) 1 0) =
      Ok (o_inbreng_min_kost_worst o).
Proof.
  assert (H : exists rows s' opts,
             results voorbeeld teller = Ok (rows, s') /\
             optimalisaties rows = Ok opts).
  { do 3 eexists. split; vm_compute; reflexivity. }
  destruct H as (rows & s' & opts & Hrun & Hopt).
  destruct (chart_marks_summary voorbeeld teller s' rows opts 1 0 Hrun Hopt)
    as (o & Ho); [left; reflexivity | left; reflexivity |].
  exists rows, s', opts, o. now repeat split.
Defined.

Lemma details_In (df : Pd.DataFrame) (t : Z) (r : Q) (chosen : Z)
    (ir : nat * Scenario) :
  In ir (details (df_sel df t r) chosen) <->
  In ir df /\ s_looptijd (snd ir) = t /\ s_rente (snd ir) == r /\
  s_inbreng (snd ir) = chosen.
Proof.
  unfold details, df_sel.
  rewrite !filter_In, andb_true_iff, !Z.eqb_eq, Qeq_bool_iff. tauto.
Qed.

Lemma detail_row_none (sel : Pd.DataFrame) (chosen : Z) :
  detail_row sel chosen = None <-> details sel chosen = [].
Proof.
  unfold detail_row. destruct (details sel chosen); split; congruence.
Qed.

(** The cells of the table with a given term, rate and down payment. *)
Lemma results_cell_exists (c : Instellingen) (s s' : RandomState)
    (rows : list Scenario) (t : Z) (r : Q) (chosen : Z) :
  results c s = Ok (rows, s') ->
  (exists row, In row rows /\ s_looptijd row = t /\ s_rente row == r /\
               s_inbreng row = chosen) <->
  (In t (looptijden c) /\ InA Qeq r (rentes c) /\
   (0 <= chosen <= totale_spaarpot c)%Z /\ (chosen mod 1000 = 0)%Z /\
   (chosen <= woningprijs c)%Z).
Proof.
  intros Hrun. apply results_plan in Hrun as [Hp _]. split.
  - intros (row & Hin & <- & Hr & <-).
    assert (Hc : In (cell_of row) (plan c)) by (rewrite <- Hp; now apply in_map).
    apply plan_In in Hc as (Ht & Hr' & HE & Hle).
    apply inbreng_values_In in HE as [HE Hm].
    repeat split; try assumption; try lia.
    apply InA_alt. exists (s_rente row). split; [now symmetry | exact Hr'].
  - intros (Ht & Hr & HE & Hm & Hle).
    apply InA_alt in Hr as (r' & Er & Hr').
    assert (Hc : In (t, r', chosen) (plan c)).
    { apply plan_In. repeat split; try assumption.
      apply inbreng_values_In. now split. }
    rewrite <- Hp in Hc. apply in_map_iff in Hc as (row & Hc & Hin).
    injection Hc as E1 E2 E3. exists row.
    repeat split; try assumption. rewrite E2. now symmetry.
Qed.

(** Looking up the details of a down payment.  The row the page prints is a
    row of the table with the selected term and rate and the chosen down
    payment; and nothing is printed exactly when the table has no such row,
    that is unless the term and the rate are among the selected ones and the
    chosen amount is a multiple of 1000 between 0 and the savings that does
    not exceed the price. *)
Theorem detail_row_found (c : Instellingen) (s s' : RandomState)
    (rows : list Scenario) (t : Z) (r : Q) (chosen : Z) :
  results c s = Ok (rows, s') ->
  (forall row,
     detail_row (df_sel (Pd.of_rows rows) t r) chosen = Some row ->
     In row rows /\ s_looptijd row = t /\ s_rente row == r /\
     s_inbreng row = chosen) /\
  (detail_row (df_sel (Pd.of_rows rows) t r) chosen = None <->
   ~ (In t (looptijden c) /\ InA Qeq r (rentes c) /\
      (0 <= chosen <= totale_spaarpot c)%Z /\ (chosen mod 1000 = 0)%Z /\
      (chosen <= woningprijs c)%Z)).
Proof.
  intros Hrun. split.
  - intros row H. unfold detail_row in H.
    destruct (details _ chosen) as [|ir l] eqn:E; [discriminate|].
    injection H as <-.
    assert (Hin : In ir (details (df_sel (Pd.of_rows rows) t r) chosen))
      by (rewrite E; now left).
    apply details_In in Hin as (Hin & H1 & H2 & H3).
    repeat split; try assumption.
    rewrite <- (of_rows_rows rows). now apply in_map.
  - rewrite detail_row_none, <- (results_cell_exists c s s' rows t r chosen Hrun).
    split.
    + intros E (row & Hin & H1 & H2 & H3).
      rewrite <- (of_rows_rows rows) in Hin.
      apply in_map_iff in Hin as (ir & <- & Hir).
      assert (H : In ir (details (df_sel (Pd.of_rows rows) t r) chosen))
        by (apply details_In; tauto).
      rewrite E in H. destruct H.
    + intros Hn.
      destruct (details _ chosen) as [|ir l] eqn:E; [reflexivity|].
      exfalso. apply Hn.
      assert (Hin : In ir (details (df_sel (Pd.of_rows rows) t r) chosen))
        by (rewrite E; now left).
      apply details_In in Hin as (Hin & H1 & H2 & H3).
      exists (snd ir). repeat split; try assumption.
      rewrite <- (of_rows_rows rows). now apply in_map.
Qed.

Lemma detail_row_found_witness :
  exists rows s',
    results voorbeeld teller = Ok (rows, s') /\
    (forall row,
       detail_row (df_sel (Pd.of_rows rows) 1 0) 1000 = Some row ->
       In row rows /\ s_looptijd row = 1%Z /\ s_rente row == 0 /\
       s_inbreng row = 1000%Z) /\
    (detail_row (df_sel (Pd.of_rows rows) 1 0) 750 = None <->
     ~ (In 1%Z (looptijden voorbeeld) /\ InA Qeq 0 (rentes voorbeeld) /\
        (0 <= 750 <= totale_spaarpot voorbeeld)%Z /\ (750 mod 1000 = 0)%Z /\
        (750 <= woningprijs voorbeeld)%Z)).
Proof.
  assert (H : exists rows s', results voorbeeld teller = Ok (rows, s'))
    by (do 2 eexists; vm_compute; reflexivity).
  destruct H as (rows & s' & Hrun). exists rows, s'.
  split; [exact Hrun|]. split.
  - exact (proj1 (detail_row_found voorbeeld teller s' rows 1 0 1000 Hrun)).
  - exact (proj2 (detail_row_found voorbeeld teller s' rows 1 0 750 Hrun)).
Defined.

(** With every term and every rate selected once, a scenario and a down
    payment name at most one row of the table, so the row the page prints is
    the only match. *)
Theorem details_at_most_one (c : Instellingen) (s s' : RandomState)
    (rows : list Scenario) (t : Z) (r : Q) (chosen : Z) :
  NoDup (looptijden c) -> NoDupA Qeq (rentes c) ->
  results c s = Ok (rows, s') ->
  (length (details (df_sel (Pd.of_rows rows) t r) chosen) <= 1)%nat.
Proof.
  intros Ht Hr Hrun.
  assert (Hasc : ascending (map cell_of rows)).
  { rewrite (proj1 (results_plan c s s' rows Hrun)). now apply plan_ascending. }
  rewrite <- (of_rows_rows rows) in Hasc.
  unfold ascending in Hasc. apply FOP_map_inv, FOP_map_inv in Hasc.
  apply (FOP_filter _ (fun ir => (s_looptijd (snd ir) =? t)%Z &&
                                  Qeq_bool (s_rente (snd ir)) r)) in Hasc.
  apply (FOP_filter _ (fun ir => (s_inbreng (snd ir) =? chosen)%Z)) in Hasc.
  fold (df_sel (Pd.of_rows rows) t r) in Hasc.
  fold (details (df_sel (Pd.of_rows rows) t r) chosen) in Hasc.
  destruct (details (df_sel (Pd.of_rows rows) t r) chosen) as [|a [|b l]] eqn:E;
    cbn; try lia.
  exfalso.
  assert (Ha : In a (details (df_sel (Pd.of_rows rows) t r) chosen))
    by (rewrite E; now left).
  assert (Hb : In b (details (df_sel (Pd.of_rows rows) t r) chosen))
    by (rewrite E; right; now left).
  apply details_In in Ha as (_ & A1 & A2 & A3).
  apply details_In in Hb as (_ & B1 & B2 & B3).
  inversion Hasc as [|x l' Hx _]; subst.
  inversion Hx as [|y l'' Hy _]; subst. cbn in Hy.
  assert ((s_inbreng (snd a) < s_inbreng (snd b))%Z).
  { apply Hy; [congruence | now rewrite A2, B2]. }
  lia.
Qed.

Lemma details_at_most_one_witness :
  exists rows s',
    results voorbeeld teller = Ok (rows, s') /\
    (length (details (df_sel (Pd.of_rows rows) 1 0) 1000) <= 1)%nat.
Proof.
  do 2 eexists. split; [vm_compute; reflexivity|].
  eapply (details_at_most_one voorbeeld teller).
  - repeat constructor. simpl. tauto.
  - repeat constructor. intros H. inversion H.
  - vm_compute; reflexivity.
Defined.

(** * The optimum without volatility *)

Lemma loan_factor_comp (q1 q2 : Q) (t : Z) :
  q1 == q2 -> loan_factor q1 t == loan_factor q2 t.
Proof.
  intros H. unfold loan_factor.
  rewrite (annuity_factor_comp (q1 / 100) (q2 / 100) t); [reflexivity|].
  now rewrite H.
Qed.

Lemma flat_cost_diff (c : Instellingen) (t : Z) (q : Q) (E1 E2 : Z) :
  flat_cost c t q E1 - flat_cost c t q E2 ==
  inject_Z (E1 - E2) * (growth_factor c t - loan_factor q t).
Proof.
  unfold flat_cost. unfold Z.sub. rewrite !inject_Z_plus, !inject_Z_opp. ring.
Qed.

(** Without volatility both net costs of a row are the cost of its cell. *)
Lemma zero_volatility_cost (c : Instellingen) (s s' : RandomState)
    (rows : list Scenario) (r : Scenario) :
  valid c -> etf_volatiliteit c == 0 ->
  results c s = Ok (rows, s') -> In r rows ->
  s_netto_kost_mean r == flat_cost c (s_looptijd r) (s_rente r) (s_inbreng r) /\
  s_netto_kost_worst r == flat_cost c (s_looptijd r) (s_rente r) (s_inbreng r).
Proof.
  intros Hval Hv Hrun Hr.
  pose proof (results_etf c s s' rows Hrun) as Hetf.
  destruct (results_plan c s s' rows Hrun) as [Hp Hok].
  rewrite Forall_forall in Hetf, Hok.
  assert (Hc : In (cell_of r) (plan c)) by (rewrite <- Hp; now apply in_map).
  apply plan_In in Hc as (Ht & Hq & _).
  destruct Hval as [Vt Vq _ _]. rewrite Forall_forall in Vt, Vq.
  pose proof (row_payment c r (Hok r Hr) (Vt _ Ht) (Vq _ Hq)) as Hm.
  destruct (etf_columns_const c r
              (inject_Z (totale_spaarpot c - s_inbreng r) *
               growth_factor c (s_looptijd r)) (Hetf r Hr)) as [Eg Ew].
  { intros s0 i. apply Qmult_comp; [reflexivity|].
    rewrite compound_const by (apply returns_at_zero_scale; exact Hv).
    unfold trial_returns, growth_factor.
    rewrite returns_at_length, Z2Nat.id by (specialize (Vt _ Ht); lia).
    reflexivity. }
  rewrite (ok_netto_kost_mean (Hok r Hr)), (ok_netto_kost_worst (Hok r Hr)).
  rewrite (ok_totale_afbetaling (Hok r Hr)), Hm, Eg, Ew.
  rewrite (ok_lening (Hok r Hr)).
  unfold flat_cost, loan_factor. split; ring.
Qed.

Lemma max_inbreng_on_grid (c : Instellingen) :
  (0 <= totale_spaarpot c)%Z -> (0 <= woningprijs c)%Z ->
  (0 <= max_inbreng c <= totale_spaarpot c)%Z /\
  (max_inbreng c mod 1000 = 0)%Z /\ (max_inbreng c <= woningprijs c)%Z.
Proof.
  intros HS HW. unfold max_inbreng.
  pose proof (Z.div_mod (Z.min (totale_spaarpot c) (woningprijs c)) 1000
                ltac:(lia)) as D.
  pose proof (Z.mod_pos_bound (Z.min (totale_spaarpot c) (woningprijs c)) 1000
                ltac:(lia)) as B.
  assert ((0 <= Z.min (totale_spaarpot c) (woningprijs c) / 1000)%Z)
    by (apply Z.div_pos; lia).
  split; [lia|]. split; [|lia].
  rewrite Z.mul_comm. apply Z.mod_mul. lia.
Qed.

Lemma max_inbreng_largest (c : Instellingen) (E : Z) :
  (E <= totale_spaarpot c)%Z -> (E <= woningprijs c)%Z -> (E mod 1000 = 0)%Z ->
  (E <= max_inbreng c)%Z.
Proof.
  intros HS HW Hm. unfold max_inbreng.
  pose proof (Z.div_mod E 1000 ltac:(lia)) as D. rewrite Hm in D.
  assert ((E / 1000 <= Z.min (totale_spaarpot c) (woningprijs c) / 1000)%Z)
    by (apply Z.div_le_mono; lia).
  lia.
Qed.

(** The first minimal row of a group on a column that is the cost of the
    cell: it sits at down payment 0 when growth is at least the loan factor,
    and at the largest down payment otherwise. *)
Lemma flat_selected (c : Instellingen) (s s' : RandomState)
    (rows : list Scenario) (col : Scenario -> Q) (o : Optimalisatie)
    (v : Q) (d : Z) :
  NoDup (looptijden c) -> NoDupA Qeq (rentes c) ->
  results c s = Ok (rows, s') ->
  (forall r, In r rows ->
     col r == flat_cost c (s_looptijd r) (s_rente r) (s_inbreng r)) ->
  selected col rows o v d ->
  (loan_factor (o_rente o) (o_looptijd o) <= growth_factor c (o_looptijd o) ->
   d = 0%Z) /\
  (growth_factor c (o_looptijd o) < loan_factor (o_rente o) (o_looptijd o) ->
   d = max_inbreng c).
Proof.
  intros Nt Nq Hrun Hcol Hsel.
  assert (Hasc : ascending (map cell_of rows)).
  { rewrite (proj1 (results_plan c s s' rows Hrun)). now apply plan_ascending. }
  pose proof (selected_lower_bound col rows o v d Hsel) as Hlow.
  pose proof (selected_smallest col rows o v d Hasc Hsel) as Hsmall.
  destruct (selected_attained col rows o v d Hsel) as (r0 & Hr0 & [Gt Gq] & Hv & Hd).
  assert (Hcell : exists row, In row rows /\ s_looptijd row = s_looptijd r0 /\
                              s_rente row == s_rente r0 /\ s_inbreng row = d)
    by (exists r0; repeat split; auto; reflexivity).
  apply (results_cell_exists c s s' rows _ _ _ Hrun) in Hcell
    as (Ht & Hq & HE & Hm & HW).
  assert (Hgrid : forall E,
             (0 <= E <= totale_spaarpot c)%Z -> (E mod 1000 = 0)%Z ->
             (E <= woningprijs c)%Z ->
             exists row, In row rows /\ same_group row o /\ s_inbreng row = E /\
               col row == flat_cost c (o_looptijd o) (o_rente o) E).
  { intros E H1 H2 H3.
    destruct (proj2 (results_cell_exists c s s' rows (s_looptijd r0)
                       (s_rente r0) E Hrun)) as (row & Hin & E1 & E2 & E3);
      [tauto|].
    exists row. split; [exact Hin|]. split; [split; [congruence|]|].
    - now rewrite E2.
    - split; [exact E3|]. rewrite (Hcol row Hin), E1, E3, Gt.
      unfold flat_cost. rewrite (loan_factor_comp (s_rente row) (o_rente o));
        [reflexivity | now rewrite E2]. }
  assert (Hv0 : v == flat_cost c (o_looptijd o) (o_rente o) d).
  { rewrite <- Hv, (Hcol r0 Hr0), Hd, Gt. unfold flat_cost.
    rewrite (loan_factor_comp (s_rente r0) (o_rente o) _ Gq). reflexivity. }
  split.
  - intros HFG.
    destruct (Hgrid 0%Z) as (rz & Hin & Hg & E0 & Hc); [lia | reflexivity | lia|].
    pose proof (Hlow rz Hin Hg) as Hle.
    pose proof (flat_cost_diff c (o_looptijd o) (o_rente o) d 0) as Hdiff.
    rewrite Z.sub_0_r in Hdiff.
    assert (Hd0 : 0 <= inject_Z d) by (change 0 with (inject_Z 0); rewrite <- Zle_Qle; lia).
    assert (Hprod : 0 <= inject_Z d *
              (growth_factor c (o_looptijd o) - loan_factor (o_rente o) (o_looptijd o))).
    { apply Qmult_le_0_compat; lra. }
    assert (Heq : col rz == v) by lra.
    specialize (Hsmall rz Hin Hg Heq). lia.
  - intros HGF.
    destruct (max_inbreng_on_grid c ltac:(lia) ltac:(lia)) as (M1 & M2 & M3).
    destruct (Hgrid (max_inbreng c) M1 M2 M3) as (rm & Hin & Hg & Em & Hc).
    pose proof (Hlow rm Hin Hg) as Hle.
    pose proof (max_inbreng_largest c d ltac:(lia) HW Hm) as Hmax.
    pose proof (flat_cost_diff c (o_looptijd o) (o_rente o) (max_inbreng c) d)
      as Hdiff.
    destruct (Z.eq_dec d (max_inbreng c)) as [E|Hne]; [exact E|]. exfalso.
    assert (Hpos : 0 < inject_Z (max_inbreng c - d))
      by (apply inject_Z_pos; lia).
    assert (Hneg : inject_Z (max_inbreng c - d) *
              (growth_factor c (o_looptijd o) - loan_factor (o_rente o) (o_looptijd o))
              < 0).
    { rewrite <- (Qmult_0_r (inject_Z (max_inbreng c - d))).
      apply Qmult_lt_l; [exact Hpos | lra]. }
    lra.
Qed.

(** Without volatility the summary recommends all or nothing.  Let the
    inputs be valid, the volatility zero and every term and rate selected
    once.  On each line of the summary, when one unit invested grows to at
    least what one unit borrowed costs, both reported down payments are 0;
    otherwise both are the largest down payment of the grid that does not
    exceed the price. *)
Theorem zero_volatility_optimum (c : Instellingen) (s s' : RandomState)
    (rows : list Scenario) (opts : list Optimalisatie) (o : Optimalisatie) :
  valid c -> etf_volatiliteit c == 0 ->
  NoDup (looptijden c) -> NoDupA Qeq (rentes c) ->
  results c s = Ok (rows, s') -> optimalisaties rows = Ok opts -> In o opts ->
  (loan_factor (o_rente o) (o_looptijd o) <= growth_factor c (o_looptijd o) ->
   o_inbreng_min_kost_mean o = 0%Z /\ o_inbreng_min_kost_worst o = 0%Z) /\
  (growth_factor c (o_looptijd o) < loan_factor (o_rente o) (o_looptijd o) ->
   o_inbreng_min_kost_mean o = max_inbreng c /\
   o_inbreng_min_kost_worst o = max_inbreng c).
Proof.
  intros Hval Hv Nt Nq Hrun Hopt Ho.
  assert (Hne : rows <> []) by (intros ->; discriminate Hopt).
  destruct (optimalisaties_spec rows Hne) as (opts' & Hopt' & _ & Hsel).
  rewrite Hopt in Hopt'. injection Hopt' as <-.
  destruct (Hsel o Ho) as [Sm Sw].
  assert (Hcost : forall r, In r rows ->
            s_netto_kost_mean r ==
              flat_cost c (s_looptijd r) (s_rente r) (s_inbreng r) /\
            s_netto_kost_worst r ==
              flat_cost c (s_looptijd r) (s_rente r) (s_inbreng r)).
  { intros r Hr. exact (zero_volatility_cost c s s' rows r Hval Hv Hrun Hr). }
  destruct (flat_selected c s s' rows s_netto_kost_mean o
              (o_min_netto_kost_mean o) (o_inbreng_min_kost_mean o)
              Nt Nq Hrun (fun r Hr => proj1 (Hcost r Hr)) Sm) as [M0 M1].
  destruct (flat_selected c s s' rows s_netto_kost_worst o
              (o_min_netto_kost_worst o) (o_inbreng_min_kost_worst o)
              Nt Nq Hrun (fun r Hr => proj2 (Hcost r Hr)) Sw) as [W0 W1].
  split; intros H; split; auto.
Qed.

Lemma zero_volatility_optimum_witness :
  let c0 := {| woningprijs := 2000; totale_spaarpot := 1500;
               looptijden := [1%Z]; rentes := [0];
               etf_rendement := 9 # 100; etf_volatiliteit := 0;
               simulaties := 2 |} in
  let c1 := {| woningprijs := 2000; totale_spaarpot := 1500;
               looptijden := [1%Z]; rentes := [5];
               etf_rendement := 0; etf_volatiliteit := 0;
               simulaties := 2 |} in
  (exists rows s' opts o,
     results c0 teller = Ok (rows, s') /\ optimalisaties rows = Ok opts /\
     nth_error opts 0 = Some o /\
     o_inbreng_min_kost_mean o = 0%Z /\ o_inbreng_min_kost_worst o = 0%Z) /\
  (exists rows s' opts o,
     results c1 teller = Ok (rows, s') /\ optimalisaties rows = Ok opts /\
     nth_error opts 0 = Some o /\
     o_inbreng_min_kost_mean o = max_inbreng c1 /\
     o_inbreng_min_kost_worst o = max_inbreng c1).
Proof.
  intros c0 c1.
  assert (V0 : valid c0).
  { constructor; cbn;
      [repeat constructor | constructor; [discriminate | constructor]
      | discriminate | reflexivity]. }
  assert (V1 : valid c1).
  { constructor; cbn;
      [repeat constructor | constructor; [discriminate | constructor]
      | discriminate | reflexivity]. }
  assert (Nt : NoDup [1%Z]) by (repeat constructor; simpl; tauto).
  assert (Nq : forall q, NoDupA Qeq [q])
    by (intros q; repeat constructor; intros H; inversion H).
  split.
  - do 4 eexists. split; [vm_compute; reflexivity|].
    split; [vm_compute; reflexivity|]. split; [reflexivity|].
    edestruct (zero_volatility_optimum c0 teller) as [T _];
      [ exact V0 | reflexivity | exact Nt | exact (Nq 0)
      | vm_compute; reflexivity | vm_compute; reflexivity
      | left; reflexivity | ].
    apply T. vm_compute. discriminate.
  - do 4 eexists. split; [vm_compute; reflexivity|].
    split; [vm_compute; reflexivity|]. split; [reflexivity|].
    edestruct (zero_volatility_optimum c1 teller) as [_ T];
      [ exact V1 | reflexivity | exact Nt | exact (Nq 5)
      | vm_compute; reflexivity | vm_compute; reflexivity
      | left; reflexivity | ].
    apply T. vm_compute. reflexivity.
Defined.

(** * The amortisation on binary64 *)

Lemma of_int_in_range (z : Z) :
  (Z.abs z <= 2 ^ 53)%Z -> exists w, B64.of_int z = Some w.
Proof.
  intros H. unfold B64.of_int.
  destruct (Z.leb_spec (Z.abs z) (2 ^ 53)); [eexists; reflexivity | lia].
Qed.

(** When the monthly rate is not zero but so small that [1 + r] rounds to
    1, the growth factor is exactly 1, the denominator [(1+r)**n - 1] is
    zero, and [maandlast] raises [ZeroDivisionError], for every principal and
    every term whose number of months fits a float. *)
Theorem maandlast_raises_when_rate_vanishes (P a : float) (N : Z) :
  (Z.abs (N * 12) <= 2 ^ 53)%Z ->
  PrimFloat.eqb (a / 12) 0 = false ->
  (1 + a / 12)%float = 1%float ->
  B64.maandlast P a N = Some (Raise ZeroDivisionError).
Proof.
  intros HN Hr H1. unfold B64.maandlast. cbv zeta.
  rewrite Hr, H1.
  assert (Hp : B64.pow 1 (N * 12) = Some (Ok 1%float)).
  { unfold B64.pow. destruct (of_int_in_range _ HN) as [w ->].
    destruct (N * 12 =? 0)%Z; reflexivity. }
  rewrite Hp. reflexivity.
Qed.

Lemma maandlast_raises_when_rate_vanishes_witness :
  B64.maandlast 100000 B64.rate_1e_16 25 = Some (Raise ZeroDivisionError).
Proof.
  apply (maandlast_raises_when_rate_vanishes 100000 B64.rate_1e_16 25);
    [vm_compute; discriminate | vm_compute; reflexivity
    | vm_compute; reflexivity].
Defined.
